(** * photutils: synthetic images and total-error arrays

    A shallow embedding of [photutils/utils/errors.py] and of the parts of
    [photutils/datasets/make.py] that generate parameter tables, render
    model sources, place non-overlapping coordinates and apply Poisson
    noise, together with the properties stated about them.

    Conventions.
    - Array elements are real numbers ([R]); infinities and NaN do not
      occur.  The rounding of float64 is an explicit operator in the
      arithmetic of the total error and of the flux/amplitude
      conversions: the identity gives exact arithmetic, [round64] gives
      binary64.
    - numpy arrays are descriptors (buffer location, shape, unit tag) over
      a store of buffers, so that views, copies and in-place updates are
      told apart.
    - Python exceptions are a result type; [finally] blocks and warnings
      are written out.
    - The collaborators that live outside the package (the unit algebra of
      astropy, the random generator and the broadcasting of numpy, the
      model being rendered) are section variables. *)

From Stdlib Require Import Reals Lra Lia ZArith.
From stdpp Require Import base list gmap strings.

#[global] Instance Rlt_decision (x y : R) : Decision (x < y)%R := Rlt_dec x y.
#[global] Instance Rle_decision (x y : R) : Decision (x <= y)%R := Rle_dec x y.
#[global] Instance Req_decision : EqDecision R := Req_dec_T.

(** ** Python exceptions and results *)

Inductive exn : Type :=
  | ValueError (msg : string)
  | UnitsError (msg : string)
  | TypeError (msg : string)
  | KeyError (key : string)
  | IndexError (msg : string)
  | AttributeError (name : string)
  | ModelError (msg : string)
  | InvalidReference.
(* [ModelError] stands for whatever a model raises when it refuses a
   parameter or cannot be evaluated.  [InvalidReference] marks a read or
   a write through a location that the store does not hold, which Python
   cannot reach. *)

Inductive res (A : Type) : Type :=
  | Ok (a : A)
  | Raise (e : exn).
Arguments Ok {A} a.
Arguments Raise {A} e.

Definition is_ok {A} (r : res A) : bool :=
  match r with Ok _ => true | Raise _ => false end.

(** ** State and exceptions

    A computation over a state [St] that returns a value or raises; the
    state reached is kept in both cases, as a Python caller sees it. *)

Definition SE (St A : Type) : Type := St -> res A * St.

Definition ret {St A} (a : A) : SE St A := fun s => (Ok a, s).
Definition raise {St A} (e : exn) : SE St A := fun s => (Raise e, s).
Definition bind {St A B} (m : SE St A) (k : A -> SE St B) : SE St B :=
  fun s => match m s with
           | (Ok a, s') => k a s'
           | (Raise e, s') => (Raise e, s')
           end.

#[global] Instance SE_ret {St} : MRet (SE St) := @ret St.
#[global] Instance SE_bind {St} : MBind (SE St) := fun A B k m => bind m k.

(** [try: body finally: fin].  The [finally] block runs on both exits of
    the body; when it raises itself, its exception is the one that
    propagates. *)
Definition try_finally {St A} (body : SE St A) (fin : SE St unit) : SE St A :=
  fun s =>
    let '(r, s1) := body s in
    match fin s1 with
    | (Ok _, s2) => (r, s2)
    | (Raise e, s2) => (Raise e, s2)
    end.

(** [m] returns from the state [s], with a value and a final state that
    satisfy [post]. *)
Definition returns {St A} (m : SE St A) (s : St) (post : A -> St -> Prop)
    : Prop :=
  exists a s', m s = (Ok a, s') /\ post a s'.

(** [m] raises [e] from the state [s]. *)
Definition raises {St A} (m : SE St A) (s : St) (e : exn) : Prop :=
  exists s', m s = (Raise e, s').

(** ** numpy arrays over a store of buffers *)

Module Numpy.

Abbreviation loc := nat.

(** The store: buffer [l] is the [l]-th entry; allocation appends. *)
Abbreviation heap := (list (list R)).

(** An array object.  [unit_of] is [Some u] for an astropy [Quantity]
    (an ndarray subclass carrying the attribute [unit]). *)
Record ndarray (U : Type) : Type := mk_ndarray {
  buf : loc;
  shape : list nat;
  unit_of : option U
}.
Arguments mk_ndarray {U} buf shape unit_of.
Arguments buf {U} _.
Arguments shape {U} _.
Arguments unit_of {U} _.

(** What Python passes for an [array_like]: an array object, or a
    (nested) sequence of numbers with its shape and flattened items. *)
Inductive array_like (U : Type) : Type :=
  | Arr (a : ndarray U)
  | Seq (sh : list nat) (xs : list R).
Arguments Arr {U} a.
Arguments Seq {U} sh xs.

Definition size_of (sh : list nat) : nat := foldr Nat.mul 1%nat sh.

Definition M : Type -> Type := SE heap.

Definition alloc (xs : list R) : M loc :=
  fun h => (Ok (length h), h ++ [xs]).
Definition load (l : loc) : M (list R) :=
  fun h => match h !! l with
           | Some xs => (Ok xs, h)
           | None => (Raise InvalidReference, h)
           end.
Definition store (l : loc) (xs : list R) : M unit :=
  fun h => match h !! l with
           | Some _ => (Ok tt, <[l := xs]> h)
           | None => (Raise InvalidReference, h)
           end.

(** [m] leaves the buffers below [n] as they are, never shrinks the
    store, and on return yields a value that satisfies [post] in a store
    that satisfies [in_store]. *)
Definition frames {A} (n : nat) (m : M A) (post : A -> Prop)
    (in_store : A -> heap -> Prop) : Prop :=
  forall h r h', n <= length h -> m h = (r, h') ->
    length h <= length h'
    /\ (forall l, l < n -> h' !! l = h !! l)
    /\ (forall a, r = Ok a -> post a /\ in_store a h').

(** A step of which only the frame matters. *)
Definition opaque_step {A} (n : nat) (m : M A) : Prop :=
  frames n m (fun _ => True) (fun _ _ => True).

End Numpy.

Import Numpy.

(** ** [photutils/utils/errors.py] *)

Module Errors.
Section calc_total_error.
Open Scope R_scope.

(** astropy's unit algebra: comparison ([==]), product, and the two
    count units. *)
Context {U : Type}.
Variable unit_eqb : U -> U -> bool.
Variable unit_mul : U -> U -> U.
Variables electron photon : U.

(** numpy's broadcasting of [+] for operands whose shapes differ:
    [None] when the shapes cannot be broadcast together. *)
Variable broadcast_add :
  list nat -> list R -> list nat -> list R -> option (list nat * list R).

(** The rounding of float64 arithmetic: the result of each division,
    square, sum and square root is the rounding of the exact result.
    Exact arithmetic is the identity. *)
Variable rnd : R -> R.

(** The argument [effective_gain]: a number (a float, or a scalar
    [Quantity] when [u] is [Some _]) or an array_like. *)
Inductive gain_like : Type :=
  | GScalar (g : R) (u : option U)
  | GArray (a : array_like U).

(** [np.asanyarray]: an ndarray (or subclass) passes through as the
    same object; a sequence is converted into a new array. *)
Definition np_asanyarray (x : array_like U) : M (ndarray U) :=
  match x with
  | Arr a => ret a
  | Seq sh xs => l ← alloc xs; ret (mk_ndarray l sh None)
  end.

Definition gain_has_unit (g : gain_like) : bool :=
  match g with
  | GScalar _ u => bool_decide (is_Some u)
  | GArray (Arr a) => bool_decide (is_Some (unit_of a))
  | GArray (Seq _ _) => false
  end.

Definition gain_unit (g : gain_like) : option U :=
  match g with
  | GScalar _ u => u
  | GArray (Arr a) => unit_of a
  | GArray (Seq _ _) => None
  end.

(** [astropy.utils.misc.isiterable]: [iter(x)] succeeds.  A number and a
    0-dimensional array are not iterable. *)
Definition isiterable (g : gain_like) : bool :=
  match g with
  | GScalar _ _ => false
  | GArray (Arr a) => negb (bool_decide (shape a = []))
  | GArray (Seq _ _) => true
  end.

(** The value of a non-iterable gain. *)
Definition gain_scalar (g : gain_like) : M R :=
  match g with
  | GScalar v _ => ret v
  | GArray (Arr a) =>
      xs ← load (buf a);
      match xs with
      | v :: _ => ret v
      | [] => raise InvalidReference
      end
  | GArray (Seq _ _) => raise (TypeError "iterable")
  end.

Definition gain_array (g : gain_like) : M (ndarray U) :=
  match g with
  | GScalar _ _ => raise (TypeError "not iterable")
  | GArray a => np_asanyarray a
  end.

(** [source_variance[mask] /= effective_gain[mask]] *)
Definition masked_divide (mask : list bool) (sv g : list R) : list R :=
  zip_with (fun (mg : bool * R) s => if mg.1 then rnd (s / mg.2) else s)
           (zip mask g) sv.

(** [source_variance[~mask] = 0.0] *)
Definition masked_zero (mask : list bool) (sv : list R) : list R :=
  zip_with (fun (m : bool) s => if m then s else 0) mask sv.

(** [bkg_error**2 + source_variance] *)
Definition np_add (sh1 : list nat) (xs : list R) (sh2 : list nat)
    (ys : list R) : res (list nat * list R) :=
  if decide (sh1 = sh2) then Ok (sh1, zip_with (fun x y => rnd (x + y)) xs ys)
  else match broadcast_add sh1 xs sh2 ys with
       | Some r => Ok r
       | None => Raise (ValueError "operands could not be broadcast together")
       end.

Definition calc_total_error (data bkg_error : array_like U)
    (effective_gain : gain_like) : M (ndarray U) :=
  data ← np_asanyarray data;
  bkg_error ← np_asanyarray bkg_error;
  let has_unit := [bool_decide (is_Some (unit_of data));
                   bool_decide (is_Some (unit_of bkg_error));
                   gain_has_unit effective_gain] in
  let use_units := forallb (fun b => b) has_unit in
  _ ← (if existsb (fun b => b) has_unit && negb use_units
       then raise (ValueError "If any of data, bkg_error, or effective_gain has units, then they all must all have units.")
       else ret tt);
  _ ← (if use_units then
         match unit_of data, unit_of bkg_error, gain_unit effective_gain with
         | Some ud, Some ub, Some ug =>
             if negb (unit_eqb ud ub)
             then raise (ValueError "data and bkg_error must have the same units.")
             else
               let datagain_unit := unit_mul ud ug in
               if negb (existsb (unit_eqb datagain_unit) [electron; photon])
               then raise (UnitsError "(data * effective_gain) must have count units (e.g., u.electron or u.photon).")
               else ret tt
         | _, _, _ => raise (AttributeError "unit")
         end
       else ret tt);
  effective_gain ←
    (if negb (isiterable effective_gain) then
       (* np.zeros(data.shape) + effective_gain: adding zero is exact *)
       g ← gain_scalar effective_gain;
       l ← alloc (replicate (size_of (shape data)) (0 + g));
       ret (mk_ndarray l (shape data) (gain_unit effective_gain))
     else
       g ← gain_array effective_gain;
       if bool_decide (shape g <> shape data)
       then raise (ValueError "If input effective_gain is 2D, then it must have the same shape as the input data.")
       else ret g);
  gs ← load (buf effective_gain);
  _ ← (if existsb (fun g => bool_decide (g < 0)) gs
       then raise (ValueError "effective_gain must be non-zero everywhere.")
       else ret tt);
  (* unit = data.unit; data.value and effective_gain.value are views of
     the same buffers without the unit *)
  let unit := unit_of data in
  let data := if use_units then mk_ndarray (buf data) (shape data) None
              else data in
  let effective_gain :=
    if use_units
    then mk_ndarray (buf effective_gain) (shape effective_gain) None
    else effective_gain in
  (* source_variance = data.copy() *)
  xs ← load (buf data);
  sv ← alloc xs;
  let source_variance := mk_ndarray sv (shape data) (unit_of data) in
  (* mask = effective_gain != 0 *)
  gs ← load (buf effective_gain);
  let mask := map (fun g => bool_decide (g <> 0)) gs in
  (* source_variance[mask] /= effective_gain[mask] *)
  cur ← load (buf source_variance);
  _ ← store (buf source_variance) (masked_divide mask cur gs);
  (* source_variance[~mask] = 0.0 *)
  cur ← load (buf source_variance);
  _ ← store (buf source_variance) (masked_zero mask cur);
  (* source_variance = np.maximum(source_variance, 0) *)
  cur ← load (buf source_variance);
  mx ← alloc (map (fun s => Rmax s 0) cur);
  let source_variance := mk_ndarray mx (shape source_variance) None in
  (* source_variance <<= unit**2 : the same buffer, tagged *)
  let source_variance :=
    if use_units
    then mk_ndarray (buf source_variance) (shape source_variance) unit
    else source_variance in
  (* np.sqrt(bkg_error**2 + source_variance) *)
  bs ← load (buf bkg_error);
  sq ← alloc (map (fun b => rnd (b ^ 2)) bs);
  sqs ← load sq;
  svs ← load (buf source_variance);
  match np_add (shape bkg_error) sqs (shape source_variance) svs with
  | Raise e => raise e
  | Ok (sh, sums) =>
      sm ← alloc sums;
      tot ← load sm;
      out ← alloc (map (fun x => rnd (sqrt x)) tot);
      ret (mk_ndarray out sh (unit_of bkg_error))
  end.

(** *** The notions of the statements *)

(** The shot-noise term in the words of the specification: [I/g],
    zero where the gain is zero, and zero where the signal is
    negative. *)
Definition shot_noise_term (I g : R) : R :=
  if decide (g = 0) then 0
  else if decide (I < 0) then 0
  else I / g.

(** What the code computes for one pixel of [source_variance]. *)
Definition source_variance_pixel (I g : R) : R :=
  Rmax (if bool_decide (g <> 0) then rnd (I / g) else 0) 0.

(** An argument [x] stands for an array of shape [sh] with items [xs]
    in the store [h]. *)
Definition represents (h : heap) (x : array_like U) (sh : list nat)
    (xs : list R) : Prop :=
  match x with
  | Arr a => h !! buf a = Some xs /\ shape a = sh
  | Seq sh' xs' => sh' = sh /\ xs' = xs
  end /\ length xs = size_of sh.

(** The gain [g] stands for the per-pixel gains [gs] of an image of
    shape [sh]: a number or a 0-dimensional array is broadcast. *)
Definition gain_represents (h : heap) (g : gain_like) (sh : list nat)
    (gs : list R) : Prop :=
  match g with
  | GScalar v _ => gs = replicate (size_of sh) v
  | GArray (Arr a) =>
      if decide (shape a = [])
      then exists v, h !! buf a = Some [v] /\ gs = replicate (size_of sh) v
      else represents h (Arr a) sh gs
  | GArray (Seq sh' xs) => represents h (Seq sh' xs) sh gs
  end.

(** The items that the code leaves in the array it returns, for the
    items [I] of the data, [bkg] of the background error and [gs] of
    the gain broadcast to the shape of the data. *)
Definition total_error_values (I bkg gs : list R) : list R :=
  let mask := map (fun g => bool_decide (g <> 0)) gs in
  let source_variance := masked_zero mask (masked_divide mask I gs) in
  let source_variance := map (fun s => Rmax s 0) source_variance in
  map (fun x => rnd (sqrt x))
      (zip_with (fun x y => rnd (x + y)) (map (fun b => rnd (b ^ 2)) bkg)
                source_variance).

Definition arg_unit (x : array_like U) : option U :=
  match x with Arr a => unit_of a | Seq _ _ => None end.

(** Units are used consistently: by none of the arguments, or by all
    three with equal data and background units and a count unit for
    data times gain. *)
Definition units_consistent (data bkg_error : array_like U)
    (g : gain_like) : Prop :=
  (arg_unit data = None /\ arg_unit bkg_error = None /\ gain_unit g = None)
  \/ (exists ud ub ug,
        arg_unit data = Some ud /\ arg_unit bkg_error = Some ub /\
        gain_unit g = Some ug /\ unit_eqb ud ub = true /\
        (unit_eqb (unit_mul ud ug) electron = true \/
         unit_eqb (unit_mul ud ug) photon = true)).

End calc_total_error.
End Errors.

(** ** [photutils/datasets/make.py] *)

Module Make.

(** *** Tables

    An astropy [QTable] as its columns in order.  All columns this
    module assigns have the length of the table, so the length check of
    astropy's column assignment is not part of the model; [copy()] is
    the identity on values. *)
Abbreviation table := (list (string * list R)).

Definition colnames (t : table) : list string := t.*1.

(** [len(table)]: a table without columns has no rows. *)
Definition table_len (t : table) : nat :=
  match t with
  | [] => 0
  | (_, c) :: _ => length c
  end.

Fixpoint column (t : table) (name : string) : option (list R) :=
  match t with
  | [] => None
  | (n, c) :: rest => if decide (n = name) then Some c else column rest name
  end.

(** [table[name] = col]: replaces the column of that name, or appends. *)
Fixpoint set_column (t : table) (name : string) (col : list R) : table :=
  match t with
  | [] => [(name, col)]
  | (n, c) :: rest =>
      if decide (n = name) then (n, col) :: rest
      else (n, c) :: set_column rest name col
  end.

(** [source[name]] for the row [i] of the table. *)
Definition row_get (t : table) (i : nat) (name : string) : res R :=
  match column t name with
  | None => Raise (KeyError name)
  | Some c =>
      match c !! i with
      | Some v => Ok v
      | None => Raise (IndexError "index out of range")
      end
  end.

(** A coordinate [(x, y)]. *)
Abbreviation point := (R * R)%type.

(** *** The random generator of numpy *)
Section random.
Open Scope R_scope.

Context {rng : Type}.
(** The generator seeded with a non-negative integer, one uniform
    draw from [[lo, hi)], and one Poisson draw of rate [lam]; each
    draw advances the generator. *)
Variable seed_rng : N -> rng.
Variable uniform_draw : rng -> R -> R -> R * rng.
Variable poisson_draw : rng -> R -> nat * rng.
(** The largest rate that the Poisson sampler of numpy accepts, about
    [9.22e18]. *)
Variable poisson_lam_max : R.

(** [np.random.default_rng(seed)]: without a seed the generator is
    seeded from the entropy of the operating system, an argument
    here. *)
Definition default_rng (seed : option N) (entropy : N) : rng :=
  seed_rng (default entropy seed).

Fixpoint uniform_n (st : rng) (lo hi : R) (n : nat) : list R * rng :=
  match n with
  | O => ([], st)
  | S k =>
      let '(x, st1) := uniform_draw st lo hi in
      let '(xs, st2) := uniform_n st1 lo hi k in
      (x :: xs, st2)
  end.

(** [rng.uniform(low, high, size)]: numpy refuses a range with
    [high < low] before it looks at the size. *)
Definition rng_uniform (st : rng) (lo hi : R) (size : Z)
    : res (list R * rng) :=
  if bool_decide (hi < lo) then Raise (ValueError "high - low < 0")
  else if (size <? 0)%Z
  then Raise (ValueError "negative dimensions are not allowed")
  else Ok (uniform_n st lo hi (Z.to_nat size)).

Fixpoint poisson_n (st : rng) (lam : list R) : list nat * rng :=
  match lam with
  | [] => ([], st)
  | l :: rest =>
      let '(k, st1) := poisson_draw st l in
      let '(ks, st2) := poisson_n st1 rest in
      (k :: ks, st2)
  end.

(** [rng.poisson(lam)] with an array of rates: numpy refuses a rate
    above its largest rate and a rate that is negative. *)
Definition rng_poisson (st : rng) (lam : list R) : res (list nat * rng) :=
  if existsb (fun l => bool_decide (poisson_lam_max < l)) lam
  then Raise (ValueError "lam value too large")
  else if existsb (fun l => bool_decide (l < 0)) lam
  then Raise (ValueError "lam < 0 or lam contains NaNs")
  else Ok (poisson_n st lam).

(** The items of the array [data] (any shape, flattened). *)
Definition apply_poisson_noise (data : list R) (seed : option N)
    (entropy : N) : res (list nat) :=
  if existsb (fun x => bool_decide (x < 0)) data
  then Raise (ValueError "data must not contain any negative values")
  else
    let rng := default_rng seed entropy in
    match rng_poisson rng data with
    | Ok (out, _) => Ok out
    | Raise e => Raise e
    end.

(** The loop of [make_random_models_table] over
    [param_ranges.items()]. *)
Fixpoint fill_columns (st : rng) (items : list (string * (R * R)))
    (n_sources : Z) (sources : table) : res (table * rng) :=
  match items with
  | [] => Ok (sources, st)
  | (param_name, (lower, upper)) :: rest =>
      match rng_uniform st lower upper n_sources with
      | Raise e => Raise e
      | Ok (col, st1) =>
          fill_columns st1 rest n_sources (set_column sources param_name col)
      end
  end.

(** [param_ranges] is the dictionary in its iteration order.  The
    [meta] entry with the version of the package is left out. *)
Definition make_random_models_table (n_sources : Z)
    (param_ranges : list (string * (R * R))) (seed : option N)
    (entropy : N) : res table :=
  let rng := default_rng seed entropy in
  let sources : table := [] in
  match fill_columns rng param_ranges n_sources sources with
  | Ok (sources, _) => Ok sources
  | Raise e => Raise e
  end.

(** *** The non-overlap sampler *)

Definition distance (p q : point) : R :=
  sqrt ((p.1 - q.1) ^ 2 + (p.2 - q.2) ^ 2).

(** The least item of a list; [None], read as infinity, when there
    is none. *)
Definition list_min (l : list R) : option R :=
  match l with
  | [] => None
  | x :: rest => Some (foldr Rmin x rest)
  end.

(** [KDTree(xycoords).query(xycoords, k=[2])]: for each point the
    distance to its second nearest neighbour in the pool, the nearest
    being the point itself at distance zero; that is the distance to
    the nearest of the other points, before and after it. *)
Fixpoint nearest_other (before after : list point) : list (option R) :=
  match after with
  | [] => []
  | p :: rest =>
      list_min (map (distance p) (before ++ rest))
        :: nearest_other (before ++ [p]) rest
  end.

Definition kdtree_query_2 (xycoords : list point) : list (option R) :=
  nearest_other [] xycoords.

(** [dist >= min_separation] *)
Definition far_enough (min_separation : R) (dist : option R) : bool :=
  match dist with
  | None => true
  | Some r => bool_decide (min_separation <= r)
  end.

(** [xycoords[mask]] *)
Fixpoint select {A} (mask : list bool) (xs : list A) : list A :=
  match mask, xs with
  | m :: mask', x :: xs' =>
      if m then x :: select mask' xs' else select mask' xs'
  | _, _ => []
  end.

Inductive warning : Type :=
  | AstropyUserWarning (msg : string).

(** The [while] loop.  [fuel] bounds the unfolding; [None] means that
    it ran out.  The result is the state at the exit of the loop, or the
    exception of a draw that the generator refused. *)
Fixpoint nonoverlap_loop (fuel : nat) (xrange yrange : R * R)
    (ncoords : nat) (min_separation : R) (st : rng)
    (xycoords : list point) (niter : nat)
    : option (res (rng * list point * nat)) :=
  match fuel with
  | O => None
  | S fuel' =>
      if (length xycoords <? ncoords)%nat then
        if (20 <? niter)%nat then Some (Ok (st, xycoords, niter))
        else
          match rng_uniform st xrange.1 xrange.2 (Z.of_nat ncoords) with
          | Raise e => Some (Raise e)
          | Ok (x_new, st1) =>
              match rng_uniform st1 yrange.1 yrange.2 (Z.of_nat ncoords) with
              | Raise e => Some (Raise e)
              | Ok (y_new, st2) =>
                  let new_xycoords := zip x_new y_new in
                  let xycoords :=
                    if (niter =? 1)%nat then new_xycoords
                    else xycoords ++ new_xycoords in
                  let dist := kdtree_query_2 xycoords in
                  let mask := map (far_enough min_separation) dist in
                  let xycoords := select mask xycoords in
                  nonoverlap_loop fuel' xrange yrange ncoords min_separation
                                  st2 xycoords (niter + 1)
              end
          end
      else Some (Ok (st, xycoords, niter))
  end.

(** [ncoords] is a count.  The result is the coordinates and the
    warnings issued, or the exception raised.  The coordinates are the
    rows of the array returned; for [ncoords = 1] the mask of the code
    is squeezed to a 0-dimensional array and the array returned has
    shape [(1, 1, 2)], the one row nested one level deeper, which the
    list of points does not show. *)
Definition _make_nonoverlap_coords (xrange yrange : R * R)
    (ncoords : nat) (min_separation : R) (seed : option N)
    (entropy : N) : option (res (list point * list warning)) :=
  let rng := default_rng seed entropy in
  match nonoverlap_loop 21 xrange yrange ncoords min_separation rng [] 1 with
  | None => None
  | Some (Raise e) => Some (Raise e)
  | Some (Ok (_, xycoords, _)) =>
      let xycoords := take ncoords xycoords in
      if (length xycoords <? ncoords)%nat
      then Some (Ok (xycoords,
                     [AstropyUserWarning "Unable to produce ncoords coordinates."]))
      else Some (Ok (xycoords, []))
  end.

(** Any two points at different positions of the list are at least
    [d] apart. *)
Definition separated (d : R) (l : list point) : Prop :=
  forall i j p q, i <> j -> l !! i = Some p -> l !! j = Some q ->
                  d <= distance p q.

(** The same, position by position: each point is at least [d] away
    from the points after it. *)
Fixpoint separated_from_rest (d : R) (l : list point) : Prop :=
  match l with
  | [] => True
  | p :: rest =>
      Forall (fun q => d <= distance p q) rest /\ separated_from_rest d rest
  end.

End random.

(** *** Models

    A model is used through three operations: reading and assigning a
    named parameter, and evaluation on the pixel grid of a shape.  The
    class of a model fixes how an assignment is validated and how the
    current parameters are evaluated, either at the pixel centres
    ([model(xidx, yidx)]) or by astropy's [discretize_model] with an
    oversampling factor.  Evaluation returns the image of the grid or
    raises. *)
Record model_class : Type := {
  validate : string -> R -> bool;
  evaluate : gmap string R -> nat * nat -> res (list R);
  discretize_model : gmap string R -> nat * nat -> R -> res (list R)
}.

(** The state of a model object: the values of its parameters, each
    accepted by the validator of its class. *)
Record model (C : model_class) : Type := mk_model {
  params : gmap string R;
  params_ok : map_Forall (fun p v => validate C p v = true) params
}.
Arguments mk_model {C} params params_ok.
Arguments params {C} _.
Arguments params_ok {C} _.

(** A Python value that is assigned to a parameter: a number, or the
    [Parameter] object that the model holds under a name.  That object
    is what [getattr(model, name)] yields: not a copy of the value but
    the parameter itself, which shows the current value whenever it is
    read. *)
Inductive pyvalue : Type :=
  | PyFloat (x : R)
  | PyParameter (name : string).

Section render.
Open Scope R_scope.
Variable C : model_class.

(** [param in model.param_names] *)
Definition is_param (m : model C) (p : string) : bool :=
  bool_decide (is_Some (params m !! p)).

(** [getattr(model, param)]: the [Parameter] of the model. *)
Definition getattr (p : string) : SE (model C) pyvalue :=
  fun m => match params m !! p with
           | Some _ => (Ok (PyParameter p), m)
           | None => (Raise (AttributeError p), m)
           end.

(** The number that an assignment stores for a value: the number
    itself, or what the [Parameter] holds at that moment. *)
Definition to_float (m : model C) (v : pyvalue) : res R :=
  match v with
  | PyFloat x => Ok x
  | PyParameter q =>
      match params m !! q with
      | Some x => Ok x
      | None => Raise (AttributeError q)
      end
  end.

(** [setattr(model, param, value)] *)
Definition setattr (p : string) (v : pyvalue) : SE (model C) unit :=
  fun m =>
    match to_float m v with
    | Raise e => (Raise e, m)
    | Ok x =>
        match decide (validate C p x = true) with
        | left Hv =>
            (Ok tt, mk_model (<[p := x]> (params m))
                             (map_Forall_insert_2 _ _ _ _ Hv (params_ok m)))
        | right _ => (Raise (ModelError "parameter"), m)
        end
    end.

(** [model(xidx, yidx)] and [discretize_model(model, ...)] *)
Definition call_model (shape : nat * nat) : SE (model C) (list R) :=
  fun m => (evaluate C (params m) shape, m).
Definition call_discretize (shape : nat * nat) (factor : R)
    : SE (model C) (list R) :=
  fun m => (discretize_model C (params m) shape factor, m).

(** The lift of a result that does not touch the model. *)
Definition lift {A} (r : res A) : SE (model C) A := fun m => (r, m).

(** [{param: getattr(model, param) for param in params_to_set}] *)
Fixpoint save_params (ps : list string)
    : SE (model C) (list (string * pyvalue)) :=
  match ps with
  | [] => mret []
  | p :: rest =>
      v ← getattr p;
      saved ← save_params rest;
      mret ((p, v) :: saved)
  end.

(** [for param in params_to_set: setattr(model, param, source[param])] *)
Fixpoint set_params (t : table) (i : nat) (ps : list string)
    : SE (model C) unit :=
  match ps with
  | [] => mret tt
  | p :: rest =>
      v ← lift (row_get t i p);
      _ ← setattr p (PyFloat v);
      set_params t i rest
  end.

(** The body of the [try]: the loop over the rows of the table.  The
    image that a model returns has the shape of the grid, so that
    [image += ...] adds item by item. *)
Fixpoint render_rows (shape : nat * nat) (t : table) (oversample : R)
    (params_to_set : list string) (rows : list nat) (image : list R)
    : SE (model C) (list R) :=
  match rows with
  | [] => mret image
  | source :: rest =>
      _ ← set_params t source params_to_set;
      v ← (if bool_decide (oversample = 1) then call_model shape
           else call_discretize shape oversample);
      render_rows shape t oversample params_to_set rest
                  (zip_with Rplus image v)
  end.

(** The [finally] block. *)
Fixpoint restore_params (init_params : list (string * pyvalue))
    : SE (model C) unit :=
  match init_params with
  | [] => mret tt
  | (param, value) :: rest =>
      _ ← setattr param value;
      restore_params rest
  end.

(** The model is the state: the result is the image or the exception,
    and the model as the caller finds it afterwards. *)
Definition make_model_sources_image (shape : nat * nat)
    (source_table : table) (oversample : R) : SE (model C) (list R) :=
  fun model0 =>
    let image := replicate (shape.1 * shape.2) 0 in
    let params_to_set := filter (fun p => is_param model0 p = true)
                                (colnames source_table) in
    (init_params ← save_params params_to_set;
     try_finally
       (render_rows shape source_table oversample params_to_set
                    (seq 0 (table_len source_table)) image)
       (restore_params init_params)) model0.

End render.

(** *** Flux and amplitude

    The arithmetic of the two conversions with its roundings written
    out: [rnd] rounds the exact result of each operation and [np_pi] is
    the constant [np.pi].  Exact arithmetic is the instance where [rnd]
    is the identity. *)
Section flux_amplitude.
Open Scope R_scope.
Variable rnd : R -> R.
Variable np_pi : R.

(** [flux / (2.0 * np.pi * xstd * ystd)] *)
Definition flux_to_amplitude (flux xstd ystd : R) : R :=
  rnd (flux / rnd (rnd (rnd (2 * np_pi) * xstd) * ystd)).

(** [amplitude * (2.0 * np.pi * sigma * sigma)] *)
Definition amplitude_to_flux (amplitude sigma : R) : R :=
  rnd (amplitude * rnd (rnd (rnd (2 * np_pi) * sigma) * sigma)).

Definition has_column (t : table) (name : string) : bool :=
  bool_decide (name ∈ colnames t).

(** A column of the table, or the default value of the model
    broadcast to the height of the table. *)
Definition column_or_default (t : table) (name : string) (dflt : R)
    : list R :=
  match column t name with
  | Some c => c
  | None => replicate (table_len t) dflt
  end.

(** The table that [make_gaussian_sources_image] hands to the
    renderer; [xstd_default] and [ystd_default] are the values of
    [model.x_stddev] and [model.y_stddev]. *)
Definition gaussian_sources_table (xstd_default ystd_default : R)
    (source_table : table) : table :=
  let xstd := column_or_default source_table "x_stddev" xstd_default in
  let ystd := column_or_default source_table "y_stddev" ystd_default in
  if has_column source_table "flux"
     && negb (has_column source_table "amplitude")
  then
    let flux := default [] (column source_table "flux") in
    set_column source_table "amplitude"
      (zip_with (fun f s => flux_to_amplitude f s.1 s.2) flux (zip xstd ystd))
  else source_table.

(** The table that [make_gaussian_prf_sources_image] hands to the
    renderer; [sigma_default] is the value of [model.sigma]. *)
Definition gaussian_prf_sources_table (sigma_default : R)
    (source_table : table) : table :=
  let sigma := column_or_default source_table "sigma" sigma_default in
  if negb (has_column source_table "flux")
     && has_column source_table "amplitude"
  then
    let amplitude := default [] (column source_table "amplitude") in
    set_column source_table "flux"
      (zip_with amplitude_to_flux amplitude sigma)
  else source_table.

(** [model] is the instance [models.Gaussian2D(x_stddev=1, y_stddev=1)]
    that the function builds; it is discarded on return. *)
Definition make_gaussian_sources_image (C : model_class) (model : model C)
    (shape : nat * nat) (source_table : table) (oversample : R)
    : res (list R) :=
  let xstd := default 1 (params model !! "x_stddev") in
  let ystd := default 1 (params model !! "y_stddev") in
  (make_model_sources_image C shape
     (gaussian_sources_table xstd ystd source_table) oversample model).1.

(** [model] is the instance [IntegratedGaussianPRF(sigma=1)]. *)
Definition make_gaussian_prf_sources_image (C : model_class)
    (model : model C) (shape : nat * nat) (source_table : table)
    : res (list R) :=
  let sigma := default 1 (params model !! "sigma") in
  (make_model_sources_image C shape
     (gaussian_prf_sources_table sigma source_table) 1 model).1.

End flux_amplitude.

(** *** Noise images and Gaussian tables *)
Section datasets.
Open Scope R_scope.

Context {rng : Type}.
Variable seed_rng : N -> rng.
Variable uniform_draw : rng -> R -> R -> R * rng.
Variable poisson_draw : rng -> R -> nat * rng.
(** One normal draw of mean [loc] and standard deviation [scale]. *)
Variable normal_draw : rng -> R -> R -> R * rng.
(** The largest rate that numpy's Poisson sampler accepts. *)
Variable poisson_lam_max : R.
Variable rnd : R -> R.
Variable np_pi : R.

Fixpoint normal_n (st : rng) (loc scale : R) (n : nat) : list R * rng :=
  match n with
  | O => ([], st)
  | S k =>
      let '(x, st1) := normal_draw st loc scale in
      let '(xs, st2) := normal_n st1 loc scale k in
      (x :: xs, st2)
  end.

(** [rng.normal(loc=, scale=, size=shape)]: the items of the image, row
    after row. *)
Definition rng_normal (st : rng) (loc scale : R) (shape : nat * nat)
    : res (list R) :=
  if bool_decide (scale < 0) then Raise (ValueError "scale < 0")
  else Ok (normal_n st loc scale (shape.1 * shape.2)).1.

(** [rng.poisson(lam=, size=shape)] with one rate for all items; the
    counts are read as numbers. *)
Definition rng_poisson_image (st : rng) (lam : R) (shape : nat * nat)
    : res (list R) :=
  if bool_decide (lam < 0) then Raise (ValueError "lam < 0 or lam is NaN")
  else if bool_decide (poisson_lam_max < lam)
  then Raise (ValueError "lam value too large")
  else Ok (map INR (poisson_n poisson_draw st
                      (replicate (shape.1 * shape.2) lam)).1).

(** [mean] and [stddev] are [None] when the argument is left out.  The
    quotation marks of the messages are dropped. *)
Definition make_noise_image (shape : nat * nat) (distribution : string)
    (mean stddev : option R) (seed : option N) (entropy : N)
    : res (list R) :=
  match mean with
  | None => Raise (ValueError "mean must be input")
  | Some mean =>
      let rng := default_rng seed_rng seed entropy in
      if decide (distribution = "gaussian") then
        match stddev with
        | None => Raise (ValueError "stddev must be input for Gaussian noise")
        | Some stddev => rng_normal rng mean stddev shape
        end
      else if decide (distribution = "poisson") then
        rng_poisson_image rng mean shape
      else Raise (ValueError "Invalid distribution. Use either gaussian or poisson.")
  end.

(** [name in param_ranges] *)
Definition has_key (param_ranges : list (string * (R * R))) (name : string)
    : bool :=
  bool_decide (name ∈ param_ranges.*1).

(** The default standard deviations are those of
    [models.Gaussian2D(x_stddev=1, y_stddev=1)]. *)
Definition make_random_gaussians_table (n_sources : Z)
    (param_ranges : list (string * (R * R))) (seed : option N)
    (entropy : N) : res table :=
  match make_random_models_table seed_rng uniform_draw n_sources
          param_ranges seed entropy with
  | Raise e => Raise e
  | Ok sources =>
      if has_key param_ranges "flux"
         && negb (has_key param_ranges "amplitude")
      then
        let xstd := column_or_default sources "x_stddev" 1 in
        let ystd := column_or_default sources "y_stddev" 1 in
        match column sources "flux" with
        | None => Raise (KeyError "flux")
        | Some flux =>
            Ok (set_column sources "amplitude"
                  (zip_with (fun f s => flux_to_amplitude rnd np_pi f s.1 s.2)
                            flux (zip xstd ystd)))
        end
      else Ok sources
  end.

End datasets.

(** *** The parameters a row is rendered with *)

(** The parameters [base] with those of [ps] replaced by the values of
    the row [i] of the table. *)
Definition row_params (base : gmap string R) (t : table) (i : nat)
    (ps : list string) : gmap string R :=
  foldl (fun acc p => match row_get t i p with
                      | Ok x => <[p := x]> acc
                      | Raise _ => acc
                      end) base ps.

(** The row [i] of the table can be assigned to a model of class [C]. *)
Definition row_assignable (C : model_class) (t : table) (i : nat)
    (ps : list string) : Prop :=
  forall p, p ∈ ps -> exists x, row_get t i p = Ok x /\ validate C p x = true.

(** The images [vs] added to [image] in turn. *)
Definition add_images (image : list R) (vs : list (list R)) : list R :=
  foldl (zip_with Rplus) image vs.

(** The point lies in the ranges, the upper bounds excluded. *)
Definition in_box (xrange yrange : R * R) (p : point) : Prop :=
  (xrange.1 <= p.1 < xrange.2)%R /\ (yrange.1 <= p.2 < yrange.2)%R.

(** What [model(xidx, yidx)], or [discretize_model] when oversampling,
    yields for a model of class [C] with the parameters [P]. *)
Definition model_image (C : model_class) (shape : nat * nat)
    (oversample : R) (P : gmap string R) : res (list R) :=
  if bool_decide (oversample = 1%R) then evaluate C P shape
  else discretize_model C P shape oversample.

End Make.

(** ** Concrete collaborators

    Instances of the section variables, on which the statements below are
    exercised. *)

Module Instances.
Open Scope R_scope.

(** A linear congruential generator on the natural numbers. *)
Definition lcg_next (st : N) : N := ((1103515245 * st + 12345) mod 2147483648)%N.
Definition lcg_seed (seed : N) : N := seed.
Definition lcg_fraction (st : N) : R := IZR (Z.of_N (st mod 1024)%N) / 1024.
Definition lcg_uniform (st : N) (lo hi : R) : R * N :=
  (lo + (hi - lo) * lcg_fraction st, lcg_next st).
(** Rate zero yields zero counts; other rates yield a count that depends
    on the state. *)
Definition lcg_poisson (st : N) (lam : R) : nat * N :=
  (if bool_decide (lam = 0) then 0%nat else N.to_nat (st mod 7)%N, lcg_next st).
(** The largest Poisson rate of numpy, [POISSON_LAM_MAX], to the
    nearest thousand. *)
Definition poisson_lam_max : R := 9223372006484771000.

(** Units as the exponents of electron, photon and second. *)
Definition exps : Type := Z * Z * Z.
Definition exps_eqb (a b : exps) : bool := bool_decide (a = b).
Definition exps_mul (a b : exps) : exps :=
  (a.1.1 + b.1.1, a.1.2 + b.1.2, a.2 + b.2)%Z.
Definition u_electron : exps := (1, 0, 0)%Z.
Definition u_photon : exps := (0, 1, 0)%Z.
Definition u_second : exps := (0, 0, 1)%Z.
Definition u_electron_per_s : exps := (1, 0, -1)%Z.

(** IEEE 754 binary64 with rounding to nearest, ties to even.  A
    number [x] is rounded to a multiple of [2^e], where [e] is the
    exponent of the unit in the last place of [x]: [2^(e+52) <= |x| <
    2^(e+53)], and [e = -1074] for the subnormal numbers and zero.
    Overflow to infinity is outside the model. *)
Definition pow2 (e : Z) : R := powerRZ 2 e.





(** No broadcasting between different shapes. *)
Definition no_broadcast (sh1 : list nat) (xs : list R) (sh2 : list nat)
    (ys : list R) : option (list nat * list R) := None.

(** A model with the parameters [amplitude] and [sigma]: [sigma] must be
    positive, the image is flat at [amplitude / sigma], and evaluation
    raises when the amplitude is negative. *)
Definition flat_image (ps : gmap string R) (shape : nat * nat) : res (list R) :=
  match ps !! "amplitude", ps !! "sigma" with
  | Some a, Some s =>
      if bool_decide (a < 0) then Raise (ModelError "negative amplitude")
      else Ok (replicate (shape.1 * shape.2) (a / s))
  | _, _ => Raise (AttributeError "amplitude")
  end.
Definition flat_class : Make.model_class :=
  {| Make.validate := fun p v =>
       if decide (p = "sigma") then bool_decide (0 < v) else true;
     Make.evaluate := flat_image;
     Make.discretize_model := fun ps shape factor => flat_image ps shape |}.

(** A generator whose uniform draw is always the lower bound. *)
Definition first_uniform (st : N) (lo hi : R) : R * N := (lo, N.succ st).

Lemma flat_params_ok :
  map_Forall (fun p v => Make.validate flat_class p v = true)
             (<["amplitude" := 5]> (<["sigma" := 2]> (∅ : gmap string R))).
Proof.
  apply map_Forall_insert_2; [done|].
  apply map_Forall_insert_2; [|apply map_Forall_empty].
  simpl. apply bool_decide_eq_true_2. lra.
Qed.

(** A model of that class with amplitude 5 and sigma 2. *)
Definition flat_model : Make.model flat_class :=
  Make.mk_model _ flat_params_ok.

End Instances.

(** * Properties *)

(** ** Poisson noise *)

Module PoissonNoise.
Section apply_poisson_noise.
Open Scope R_scope.
Context {rng : Type}.
Variable seed_rng : N -> rng.
Variable poisson_draw : rng -> R -> nat * rng.
Variable poisson_lam_max : R.

(** A Poisson variable of rate zero is zero. *)
Hypothesis poisson_draw_zero : forall st, (poisson_draw st 0).1 = 0%nat.

Local Abbreviation apply_poisson_noise :=
  (Make.apply_poisson_noise seed_rng poisson_draw poisson_lam_max).

Lemma existsb_negative (data : list R) :
  existsb (fun x => bool_decide (x < 0)) data = true
  <-> Exists (fun x => x < 0) data.
Proof.
  induction data as [|x data IH]; simpl.
  - split; [discriminate | intros H; inversion H].
  - rewrite orb_true_iff, IH, Exists_cons, bool_decide_eq_true. tauto.
Qed.

Lemma poisson_n_length st (lam : list R) :
  length (Make.poisson_n poisson_draw st lam).1 = length lam.
Proof.
  revert st. induction lam as [|l lam IH]; intros st; simpl; [done|].
  destruct (poisson_draw st l) as [k st1].
  specialize (IH st1).
  destruct (Make.poisson_n poisson_draw st1 lam) as [ks st2].
  simpl in *. by rewrite IH.
Qed.

Lemma poisson_n_zero st (lam : list R) :
  Forall (fun x => x = 0) lam ->
  (Make.poisson_n poisson_draw st lam).1 = replicate (length lam) 0%nat.
Proof.
  intros Hz. revert st.
  induction Hz as [|l lam Hl _ IH]; intros st; simpl; [done|].
  subst l. pose proof (poisson_draw_zero st) as H0.
  destruct (poisson_draw st 0) as [k st1]. simpl in H0. subst k.
  specialize (IH st1).
  destruct (Make.poisson_n poisson_draw st1 lam) as [ks st2].
  simpl in *. by rewrite IH.
Qed.

Lemma existsb_too_large (data : list R) :
  existsb (fun x => bool_decide (poisson_lam_max < x)) data = true
  <-> Exists (fun x => poisson_lam_max < x) data.
Proof.
  induction data as [|x data IH]; simpl.
  - split; [discriminate | intros H; inversion H].
  - rewrite orb_true_iff, IH, Exists_cons, bool_decide_eq_true. tauto.
Qed.

Lemma apply_poisson_noise_ok (data : list R) seed entropy :
  ~ Exists (fun x => x < 0) data ->
  ~ Exists (fun x => poisson_lam_max < x) data ->
  apply_poisson_noise data seed entropy
  = Ok (Make.poisson_n poisson_draw (Make.default_rng seed_rng seed entropy) data).1.
Proof.
  intros Hneg Hbig. rewrite <- existsb_negative in Hneg.
  rewrite <- existsb_too_large in Hbig.
  apply not_true_is_false in Hneg. apply not_true_is_false in Hbig.
  unfold Make.apply_poisson_noise, Make.rng_poisson. rewrite Hneg, Hbig.
  by destruct (Make.poisson_n _ _ _).
Qed.

Lemma in_domain_no_exists (data : list R) :
  Forall (fun x => 0 <= x <= poisson_lam_max) data ->
  ~ Exists (fun x => x < 0) data
  /\ ~ Exists (fun x => poisson_lam_max < x) data.
Proof.
  intros Hdom. rewrite Forall_forall in Hdom.
  split; rewrite Exists_exists; intros (x & Hx & Hlt);
    specialize (Hdom x Hx); lra.
Qed.

(** C8, as the code has it.  [apply_poisson_noise] raises exactly when
    the data contains a negative item or an item above the largest rate
    of the sampler: its own [ValueError] for a negative item, and the
    [ValueError] of the sampler otherwise.  On data whose items lie
    between zero and that rate it returns one count per item; and on
    data that is zero everywhere it returns zero everywhere, whatever
    the seed and the state of the generator. *)
Theorem apply_poisson_noise_domain (data : list R) seed entropy :
  (is_ok (apply_poisson_noise data seed entropy) = false
   <-> Exists (fun x => x < 0) data
       \/ Exists (fun x => poisson_lam_max < x) data)
  /\ (Exists (fun x => x < 0) data ->
      apply_poisson_noise data seed entropy
      = Raise (ValueError "data must not contain any negative values"))
  /\ (~ Exists (fun x => x < 0) data ->
      Exists (fun x => poisson_lam_max < x) data ->
      apply_poisson_noise data seed entropy
      = Raise (ValueError "lam value too large"))
  /\ (Forall (fun x => 0 <= x <= poisson_lam_max) data ->
      exists out, apply_poisson_noise data seed entropy = Ok out
                  /\ length out = length data)
  /\ (0 <= poisson_lam_max -> Forall (fun x => x = 0) data ->
      apply_poisson_noise data seed entropy
      = Ok (replicate (length data) 0%nat)).
Proof.
  assert (Hraise : Exists (fun x => x < 0) data ->
            apply_poisson_noise data seed entropy
            = Raise (ValueError "data must not contain any negative values")).
  { intros Hneg. apply existsb_negative in Hneg.
    unfold Make.apply_poisson_noise. by rewrite Hneg. }
  assert (Hlarge : ~ Exists (fun x => x < 0) data ->
            Exists (fun x => poisson_lam_max < x) data ->
            apply_poisson_noise data seed entropy
            = Raise (ValueError "lam value too large")).
  { intros Hneg Hbig. rewrite <- existsb_negative in Hneg.
    apply not_true_is_false in Hneg. apply existsb_too_large in Hbig.
    unfold Make.apply_poisson_noise, Make.rng_poisson.
    by rewrite Hneg, Hbig. }
  split; [|split; [done|split; [done|split]]].
  - split.
    + intros Hfail.
      destruct (decide (Exists (fun x => x < 0) data)) as [|Hno]; [by left|].
      destruct (decide (Exists (fun x => poisson_lam_max < x) data))
        as [|Hnb]; [by right|].
      rewrite (apply_poisson_noise_ok _ _ _ Hno Hnb) in Hfail. discriminate.
    + intros [Hneg|Hbig]; [by rewrite (Hraise Hneg)|].
      destruct (decide (Exists (fun x => x < 0) data)) as [Hneg|Hno].
      * by rewrite (Hraise Hneg).
      * by rewrite (Hlarge Hno Hbig).
  - intros Hdom. destruct (in_domain_no_exists data Hdom) as [Hno Hnb].
    rewrite (apply_poisson_noise_ok _ _ _ Hno Hnb).
    eexists; split; [done|]. apply poisson_n_length.
  - intros Hmax Hz.
    destruct (in_domain_no_exists data) as [Hno Hnb].
    { eapply Forall_impl; [exact Hz|]. simpl. intros x ->. lra. }
    rewrite (apply_poisson_noise_ok _ _ _ Hno Hnb).
    by rewrite poisson_n_zero.
Qed.

End apply_poisson_noise.

(** The statement on the linear congruential generator, for an image of
    three dark pixels. *)
Lemma apply_poisson_noise_domain_witness :
  Make.apply_poisson_noise Instances.lcg_seed Instances.lcg_poisson
    Instances.poisson_lam_max [0; 0; 0]%R (Some 5%N) 0%N = Ok [0; 0; 0]%nat.
Proof.
  refine (proj2 (proj2 (proj2 (proj2
    (apply_poisson_noise_domain Instances.lcg_seed Instances.lcg_poisson
       Instances.poisson_lam_max _ [0; 0; 0]%R (Some 5%N) 0%N)))) _ _).
  - intros st. unfold Instances.lcg_poisson. simpl.
    by rewrite bool_decide_eq_true_2.
  - unfold Instances.poisson_lam_max. lra.
  - by repeat constructor.
Defined.

(** C8 as stated fails: a rate of [1e19] is not negative, and the
    sampler refuses it. *)
Lemma apply_poisson_noise_ceiling_counterexample :
  ~ (Forall (fun x => 0 <= x)%R [10000000000000000000]%R ->
     is_ok (Make.apply_poisson_noise Instances.lcg_seed Instances.lcg_poisson
              Instances.poisson_lam_max [10000000000000000000]%R
              (Some 5%N) 0%N) = true).
Proof.
  intros Hclaim.
  assert (Hok : Forall (fun x => 0 <= x)%R [10000000000000000000]%R).
  { repeat constructor. lra. }
  specialize (Hclaim Hok). revert Hclaim.
  unfold Make.apply_poisson_noise, Make.rng_poisson. simpl.
  rewrite bool_decide_eq_false_2 by lra. simpl.
  rewrite bool_decide_eq_true_2 by (unfold Instances.poisson_lam_max; lra).
  discriminate.
Qed.

End PoissonNoise.

(** ** Random parameter tables *)

Module RandomTable.
Section make_random_models_table.
Open Scope R_scope.
Context {rng : Type}.
Variable seed_rng : N -> rng.
Variable uniform_draw : rng -> R -> R -> R * rng.

Local Abbreviation make_random_models_table :=
  (Make.make_random_models_table seed_rng uniform_draw).
Local Abbreviation fill_columns := (Make.fill_columns uniform_draw).

Lemma uniform_n_length st lo hi n :
  length (Make.uniform_n uniform_draw st lo hi n).1 = n.
Proof.
  revert st. induction n as [|n IH]; intros st; simpl; [done|].
  destruct (uniform_draw st lo hi) as [x st1]. specialize (IH st1).
  destruct (Make.uniform_n uniform_draw st1 lo hi n) as [xs st2].
  simpl in *. by rewrite IH.
Qed.

Lemma set_column_lengths (t : Make.table) name col k :
  Forall (fun c => length c.2 = k) t -> length col = k ->
  Forall (fun c => length c.2 = k) (Make.set_column t name col).
Proof.
  intros Ht Hcol. induction Ht as [|[n c] t Hc Ht IH]; simpl.
  - by repeat constructor.
  - destruct (decide (n = name)); constructor; auto.
Qed.

Lemma set_column_nonempty (t : Make.table) name col :
  Make.set_column t name col <> [].
Proof. destruct t as [|[n c] t]; simpl; [done|]. by destruct (decide _). Qed.

Lemma table_len_uniform (t : Make.table) k :
  t <> [] -> Forall (fun c => length c.2 = k) t -> Make.table_len t = k.
Proof.
  destruct t as [|[n c] t]; [done|]. intros _ Ht.
  by apply Forall_cons_1 in Ht as [Hc _].
Qed.

Lemma fill_columns_ok st items (n : Z) (sources : Make.table) :
  (0 <= n)%Z ->
  Forall (fun kv => kv.2.1 <= kv.2.2) items ->
  Forall (fun c => length c.2 = Z.to_nat n) sources ->
  exists t st', fill_columns st items n sources = Ok (t, st')
    /\ Forall (fun c => length c.2 = Z.to_nat n) t
    /\ (items <> [] -> t <> []).
Proof.
  intros Hn Hord. revert st sources.
  induction Hord as [|[name [lo hi]] items Hlohi _ IH]; intros st sources Hs;
    simpl.
  - by exists sources, st.
  - unfold Make.rng_uniform. simpl in Hlohi.
    rewrite bool_decide_eq_false_2 by lra.
    destruct (Z.ltb_spec n 0) as [|_]; [lia|].
    pose proof (uniform_n_length st lo hi (Z.to_nat n)) as Hlen.
    destruct (Make.uniform_n uniform_draw st lo hi (Z.to_nat n)) as [col st1].
    simpl in Hlen.
    destruct (IH st1 (Make.set_column sources name col)) as (t & st' & Hrun & Ht & Hne).
    { by apply set_column_lengths. }
    exists t, st'. split; [done|]. split; [done|]. intros _.
    destruct items as [|item items].
    + simpl in Hrun. injection Hrun as <- _. apply set_column_nonempty.
    + by apply Hne.
Qed.

Lemma fill_columns_raise st items (n : Z) (sources : Make.table) e :
  fill_columns st items n sources = Raise e ->
  items <> []
  /\ ((n < 0)%Z /\ e = ValueError "negative dimensions are not allowed"
      \/ Exists (fun kv => kv.2.2 < kv.2.1) items
         /\ e = ValueError "high - low < 0").
Proof.
  revert st sources.
  induction items as [|[name [lo hi]] items IH]; intros st sources; simpl.
  - discriminate.
  - unfold Make.rng_uniform.
    destruct (decide (hi < lo)) as [Hrev|Hord].
    { rewrite bool_decide_eq_true_2 by done. intros [= <-].
      split; [done|]. right. split; [|done]. by left. }
    rewrite bool_decide_eq_false_2 by done.
    destruct (Z.ltb_spec n 0) as [Hlt|Hge].
    + intros [= <-]. split; [done|]. by left.
    + destruct (Make.uniform_n uniform_draw st lo hi (Z.to_nat n)) as [col st1].
      intros Hr. apply IH in Hr as (_ & [Hneg|[Hrev He]]).
      * split; [done|]. by left.
      * split; [done|]. right. split; [by right|done].
Qed.

(** C4, as the code has it.  For every non-negative count [n] and
    every range map whose ranges have their lower bound at or below
    their upper bound, the call succeeds and every column of the table
    has [n] items, so that a table made from at least one parameter has
    [n] rows.  With an empty range map the result is the table without
    columns, which has no rows, whatever [n] is: [n] is not consulted.
    The call fails only when there is a parameter to draw and either
    [n] is negative or a range is reversed, with the [ValueError] of the
    generator. *)
Theorem make_random_models_table_rows (n : Z)
    (param_ranges : list (string * (R * R))) seed entropy :
  ((0 <= n)%Z -> Forall (fun kv => kv.2.1 <= kv.2.2) param_ranges ->
     exists t, make_random_models_table n param_ranges seed entropy = Ok t
       /\ Forall (fun c => length c.2 = Z.to_nat n) t
       /\ (param_ranges <> [] -> Make.table_len t = Z.to_nat n))
  /\ (param_ranges = [] ->
        make_random_models_table n param_ranges seed entropy = Ok []
        /\ Make.table_len [] = 0%nat)
  /\ (forall e, make_random_models_table n param_ranges seed entropy = Raise e ->
        param_ranges <> []
        /\ ((n < 0)%Z /\ e = ValueError "negative dimensions are not allowed"
            \/ Exists (fun kv => kv.2.2 < kv.2.1) param_ranges
               /\ e = ValueError "high - low < 0")).
Proof.
  unfold Make.make_random_models_table. split; [|split].
  - intros Hn Hord.
    destruct (fill_columns_ok (Make.default_rng seed_rng seed entropy)
                param_ranges n [] Hn Hord) as (t & st' & Hrun & Ht & Hne);
      [constructor|].
    rewrite Hrun. exists t. split; [done|]. split; [done|].
    intros Hp. apply table_len_uniform; auto.
  - intros ->. done.
  - intros e.
    destruct (fill_columns _ param_ranges n [])
      as [[t st']|e'] eqn:Hrun; [discriminate|].
    intros [= <-]. by apply fill_columns_raise in Hrun.
Qed.

End make_random_models_table.

(** Three sources requested with two parameters: three rows. *)
Lemma make_random_models_table_rows_witness :
  exists t,
    Make.make_random_models_table Instances.lcg_seed Instances.lcg_uniform 3
      [("flux", (500, 1000)); ("x_mean", (0, 500))]%R (Some 0%N) 0%N = Ok t
    /\ Make.table_len t = 3%nat.
Proof.
  destruct (proj1 (make_random_models_table_rows Instances.lcg_seed
                     Instances.lcg_uniform 3
                     [("flux", (500, 1000)); ("x_mean", (0, 500))]%R
                     (Some 0%N) 0%N)) as (t & Hrun & _ & Hlen).
  - lia.
  - repeat constructor; simpl; lra.
  - exists t. split; [exact Hrun|]. apply Hlen. discriminate.
Defined.

(** C4 as stated fails: with an empty range map and three sources
    requested, the table returned has no rows. *)
Lemma make_random_models_table_empty_counterexample :
  ~ (exists t,
       Make.make_random_models_table Instances.lcg_seed Instances.lcg_uniform 3
         [] (Some 0%N) 0%N = Ok t
       /\ Make.table_len t = 3%nat).
Proof.
  intros (t & Hrun & Hlen). cbv in Hrun. injection Hrun as <-.
  simpl in Hlen. discriminate.
Qed.

(** A reversed range is refused by the generator, also for a count that
    is not negative. *)
Lemma make_random_models_table_reversed_range :
  Make.make_random_models_table Instances.lcg_seed Instances.lcg_uniform 3
    [("flux", (5, 1))]%R (Some 0%N) 0%N
  = Raise (ValueError "high - low < 0").
Proof.
  unfold Make.make_random_models_table, Make.fill_columns, Make.rng_uniform.
  rewrite bool_decide_eq_true_2 by lra. reflexivity.
Qed.

End RandomTable.

(** ** Flux and amplitude *)

Module FluxAmplitude.
Section roundtrip.
Open Scope R_scope.
Variable rnd : R -> R.
Variable np_pi : R.
Variable u : R.

(** The standard model of floating-point arithmetic: every operation
    returns its exact result with a relative error of at most [u]. *)
Hypothesis u_range : 0 <= u < 1.
Hypothesis rnd_relative : forall x, Rabs (rnd x - x) <= u * Rabs x.
Hypothesis np_pi_pos : 0 < np_pi.

Local Abbreviation flux_to_amplitude := (Make.flux_to_amplitude rnd np_pi).
Local Abbreviation amplitude_to_flux := (Make.amplitude_to_flux rnd np_pi).

Lemma rnd_pos x : 0 < x -> 0 < rnd x.
Proof.
  intros Hx. pose proof (rnd_relative x) as H.
  rewrite (Rabs_right x) in H by lra.
  revert H. unfold Rabs. destruct (Rcase_abs (rnd x - x)); nra.
Qed.

(** [2.0 * np.pi * sigma * sigma], as computed, is positive. *)
Lemma two_pi_sigma2_pos sigma :
  0 < sigma -> 0 < rnd (rnd (rnd (2 * np_pi) * sigma) * sigma).
Proof.
  intros Hs.
  apply rnd_pos, Rmult_lt_0_compat; [|done].
  apply rnd_pos, Rmult_lt_0_compat; [|done].
  apply rnd_pos. lra.
Qed.

Lemma roundtrip_bound (flux k : R) :
  0 < k ->
  Rabs (rnd (rnd (flux / k) * k) - flux) <= (2 * u + u * u) * Rabs flux.
Proof.
  intros Hk.
  pose proof (rnd_relative (flux / k)) as H1.
  pose proof (rnd_relative (rnd (flux / k) * k)) as H2.
  set (a := rnd (flux / k)) in *.
  assert (Hfk : Rabs (flux / k) * k = Rabs flux).
  { unfold Rdiv. rewrite Rabs_mult, (Rabs_right (/ k)).
    - field. lra.
    - left. by apply Rinv_0_lt_compat. }
  assert (H3 : Rabs (a * k - flux) <= u * Rabs flux).
  { replace (a * k - flux) with ((a - flux / k) * k) by (field; lra).
    rewrite Rabs_mult, (Rabs_right k) by lra.
    rewrite <- Hfk. nra. }
  assert (H4 : Rabs (a * k) <= (1 + u) * Rabs flux).
  { replace (a * k) with ((a * k - flux) + flux) by ring.
    eapply Rle_trans; [apply Rabs_triang|]. lra. }
  replace (rnd (a * k) - flux)
    with ((rnd (a * k) - a * k) + (a * k - flux)) by ring.
  eapply Rle_trans; [apply Rabs_triang|].
  destruct u_range as [Hu0 Hu1]. nra.
Qed.

(** C9.  For every flux and every positive width, with
    [x_stddev = y_stddev = sigma], the amplitude computed from the flux
    by the Gaussian code, turned back into a flux by the PRF code, is the
    flux up to the relative error [2u + u^2] of two roundings; with exact
    arithmetic ([u = 0]) it is the flux. *)
Theorem flux_amplitude_roundtrip (flux sigma : R) :
  0 < sigma ->
  Rabs (amplitude_to_flux (flux_to_amplitude flux sigma sigma) sigma - flux)
  <= (2 * u + u * u) * Rabs flux.
Proof.
  intros Hs. unfold Make.flux_to_amplitude, Make.amplitude_to_flux.
  apply (roundtrip_bound flux (rnd (rnd (rnd (2 * np_pi) * sigma) * sigma))).
  by apply two_pi_sigma2_pos.
Qed.

End roundtrip.

(** In exact arithmetic the two formulas are inverse to each other
    whenever [sigma^2 = x_stddev * y_stddev]. *)
Lemma flux_amplitude_roundtrip_exact (flux xstd ystd sigma : R) :
  (0 < xstd -> 0 < ystd -> sigma * sigma = xstd * ystd ->
   Make.amplitude_to_flux (fun x => x) PI
     (Make.flux_to_amplitude (fun x => x) PI flux xstd ystd) sigma = flux)%R.
Proof.
  intros Hx Hy Hs. unfold Make.flux_to_amplitude, Make.amplitude_to_flux.
  pose proof PI_RGT_0 as Hpi.
  replace (2 * PI * sigma * sigma)%R with (2 * PI * (xstd * ystd))%R
    by (rewrite <- Hs; ring).
  field. repeat split; lra.
Qed.

(** The statement for a rounding that overshoots by one part in 1024. *)
Lemma flux_amplitude_roundtrip_witness :
  (Rabs (Make.amplitude_to_flux (fun x => x * (1 + / 1024)) PI
           (Make.flux_to_amplitude (fun x => x * (1 + / 1024)) PI 100 2 2) 2
         - 100)
   <= (2 * / 1024 + / 1024 * / 1024) * Rabs 100)%R.
Proof.
  apply (flux_amplitude_roundtrip (fun x => x * (1 + / 1024))%R PI (/ 1024)%R).
  - lra.
  - intros x. replace (x * (1 + / 1024) - x)%R with (/ 1024 * x)%R by field.
    rewrite Rabs_mult, (Rabs_right (/ 1024)) by lra. lra.
  - apply PI_RGT_0.
  - lra.
Defined.

End FluxAmplitude.

(** ** The non-overlap sampler *)

Module NonOverlap.
Section sampler.
Open Scope R_scope.
Context {rng : Type}.
Variable seed_rng : N -> rng.
Variable uniform_draw : rng -> R -> R -> R * rng.

Local Abbreviation nonoverlap_loop := (Make.nonoverlap_loop uniform_draw).
Local Abbreviation _make_nonoverlap_coords :=
  (Make._make_nonoverlap_coords seed_rng uniform_draw).

Lemma distance_sym (p q : Make.point) : Make.distance p q = Make.distance q p.
Proof. unfold Make.distance. f_equal. ring. Qed.

Lemma foldr_Rmin_le (x : R) (l : list R) :
  foldr Rmin x l <= x /\ Forall (fun y => foldr Rmin x l <= y) l.
Proof.
  induction l as [|y l [IHx IHl]]; simpl.
  - split; [lra | constructor].
  - split.
    + eapply Rle_trans; [apply Rmin_r | done].
    + constructor; [apply Rmin_l|].
      eapply Forall_impl; [exact IHl|]. simpl. intros z Hz.
      eapply Rle_trans; [apply Rmin_r | done].
Qed.

Lemma far_enough_all (d : R) (l : list R) :
  Make.far_enough d (Make.list_min l) = true -> Forall (fun x => d <= x) l.
Proof.
  destruct l as [|x l]; simpl; [constructor|].
  rewrite bool_decide_eq_true. intros Hd.
  destruct (foldr_Rmin_le x l) as [Hx Hl].
  constructor; [lra|].
  eapply Forall_impl; [exact Hl|]. simpl. intros; lra.
Qed.

Lemma select_Forall {A} (P : A -> Prop) (mask : list bool) (xs : list A) :
  Forall P xs -> Forall P (Make.select mask xs).
Proof.
  intros H. revert mask.
  induction H as [|x xs Hx _ IH]; intros [|m mask]; simpl; try constructor.
  destruct m; [constructor|]; auto.
Qed.

(** One round of filtering leaves points that are pairwise separated,
    whatever the pool was. *)
Lemma select_separated (d : R) (before after : list Make.point) :
  Make.separated_from_rest d
    (Make.select (map (Make.far_enough d) (Make.nearest_other before after))
                 after).
Proof.
  revert before. induction after as [|p rest IH]; intros before; simpl; [done|].
  destruct (Make.far_enough d _) eqn:Hfar; [|apply IH].
  simpl. split; [|apply IH].
  apply far_enough_all in Hfar.
  rewrite Forall_fmap, Forall_app in Hfar. destruct Hfar as [_ Hrest].
  by apply select_Forall.
Qed.

Lemma separated_from_rest_ordered (d : R) (l : list Make.point) :
  Make.separated_from_rest d l ->
  forall i j p q, (i < j)%nat -> l !! i = Some p -> l !! j = Some q ->
                  d <= Make.distance p q.
Proof.
  induction l as [|x l IH]; simpl; [done|].
  intros [Hx Hl] i j p q Hij Hi Hj.
  destruct j as [|j]; [lia|]. simpl in Hj.
  destruct i as [|i]; simpl in Hi.
  - injection Hi as ->. rewrite Forall_forall in Hx.
    apply Hx. by eapply list_elem_of_lookup_2.
  - eapply (IH Hl i j); eauto. lia.
Qed.

Lemma separated_from_rest_separated (d : R) (l : list Make.point) :
  Make.separated_from_rest d l -> Make.separated d l.
Proof.
  intros Hl i j p q Hij Hi Hj.
  destruct (Nat.lt_total i j) as [Hlt|[->|Hgt]]; [|done|].
  - by eapply separated_from_rest_ordered.
  - rewrite distance_sym. by eapply separated_from_rest_ordered.
Qed.

Lemma separated_take (d : R) (n : nat) (l : list Make.point) :
  Make.separated d l -> Make.separated d (take n l).
Proof.
  intros Hl i j p q Hij Hi Hj.
  apply lookup_take_Some in Hi as [Hi _].
  apply lookup_take_Some in Hj as [Hj _].
  by eapply Hl.
Qed.

Lemma rng_uniform_ordered (st : rng) lo hi (n : nat) :
  lo <= hi ->
  Make.rng_uniform uniform_draw st lo hi (Z.of_nat n)
  = Ok (Make.uniform_n uniform_draw st lo hi n).
Proof.
  intros Hord. unfold Make.rng_uniform.
  rewrite bool_decide_eq_false_2 by lra.
  destruct (Z.ltb_spec (Z.of_nat n) 0) as [|_]; [lia|].
  by rewrite Nat2Z.id.
Qed.

Lemma rng_uniform_count (st : rng) lo hi (n : nat) r :
  Make.rng_uniform uniform_draw st lo hi (Z.of_nat n) = r ->
  (lo <= hi /\ r = Ok (Make.uniform_n uniform_draw st lo hi n))
  \/ (hi < lo /\ r = Raise (ValueError "high - low < 0")).
Proof.
  intros <-. destruct (decide (hi < lo)) as [Hrev|Hord].
  - right. split; [done|]. unfold Make.rng_uniform.
    by rewrite bool_decide_eq_true_2.
  - left. split; [lra|]. apply rng_uniform_ordered. lra.
Qed.

(** The loop, unfolded once. *)
Lemma nonoverlap_loop_unfold fuel xrange yrange ncoords d (st : rng) pool niter :
  nonoverlap_loop (S fuel) xrange yrange ncoords d st pool niter
  = if (length pool <? ncoords)%nat then
      if (20 <? niter)%nat then Some (Ok (st, pool, niter))
      else
        match Make.rng_uniform uniform_draw st xrange.1 xrange.2
                (Z.of_nat ncoords) with
        | Raise e => Some (Raise e)
        | Ok (x_new, st1) =>
            match Make.rng_uniform uniform_draw st1 yrange.1 yrange.2
                    (Z.of_nat ncoords) with
            | Raise e => Some (Raise e)
            | Ok (y_new, st2) =>
                let new_xycoords := zip x_new y_new in
                let xycoords :=
                  if (niter =? 1)%nat then new_xycoords
                  else pool ++ new_xycoords in
                let dist := Make.kdtree_query_2 xycoords in
                let mask := map (Make.far_enough d) dist in
                let xycoords := Make.select mask xycoords in
                nonoverlap_loop fuel xrange yrange ncoords d
                                st2 xycoords (niter + 1)
            end
        end
    else Some (Ok (st, pool, niter)).
Proof. reflexivity. Qed.

(** The loop keeps the pool separated and leaves with enough fuel, with
    the state at its exit or with the exception of a draw from a
    reversed range. *)
Lemma nonoverlap_loop_spec xrange yrange ncoords d :
  forall fuel st pool niter,
    (21 <= niter + fuel)%nat ->
    Make.separated_from_rest d pool ->
    exists r,
      nonoverlap_loop (S fuel) xrange yrange ncoords d st pool niter = Some r
      /\ match r with
         | Ok (st', pool', niter') =>
             Make.separated_from_rest d pool'
             /\ (niter' <= Nat.max niter 21)%nat
             /\ ((length pool' < ncoords)%nat -> (20 < niter')%nat)
         | Raise e =>
             (xrange.2 < xrange.1 \/ yrange.2 < yrange.1)
             /\ e = ValueError "high - low < 0"
         end.
Proof.
  induction fuel as [|fuel IH]; intros st pool niter Hfuel Hsep.
  - rewrite nonoverlap_loop_unfold.
    destruct (Nat.ltb_spec (length pool) ncoords) as [Hlen|Hlen].
    + destruct (Nat.ltb_spec 20 niter) as [Hn|Hn]; [|lia].
      exists (Ok (st, pool, niter)). repeat split; [done|lia|done].
    + exists (Ok (st, pool, niter)). repeat split; [done|lia|lia].
  - rewrite nonoverlap_loop_unfold.
    destruct (Nat.ltb_spec (length pool) ncoords) as [Hlen|Hlen].
    + destruct (Nat.ltb_spec 20 niter) as [Hn|Hn].
      * exists (Ok (st, pool, niter)). repeat split; [done|lia|done].
      * destruct (rng_uniform_count st xrange.1 xrange.2 ncoords _ eq_refl)
          as [[_ ->]|[Hx ->]]; [|exists (Raise (ValueError "high - low < 0")); auto].
        destruct (Make.uniform_n uniform_draw st xrange.1 xrange.2 ncoords)
          as [x_new st1].
        destruct (rng_uniform_count st1 yrange.1 yrange.2 ncoords _ eq_refl)
          as [[_ ->]|[Hy ->]]; [|exists (Raise (ValueError "high - low < 0")); auto].
        destruct (Make.uniform_n uniform_draw st1 yrange.1 yrange.2 ncoords)
          as [y_new st2].
        set (pool1 := if (niter =? 1)%nat then zip x_new y_new
                      else pool ++ zip x_new y_new).
        destruct (IH st2
                    (Make.select (map (Make.far_enough d)
                                      (Make.kdtree_query_2 pool1)) pool1)
                    (niter + 1)%nat) as (r & Hrun & Hr).
        { lia. }
        { apply select_separated. }
        exists r. split; [exact Hrun|].
        destruct r as [[[st' pool'] niter']|e]; [|done].
        destruct Hr as (Hs & Hn' & Hexit). repeat split; [done|lia|done].
    + exists (Ok (st, pool, niter)). repeat split; [done|lia|lia].
Qed.

(** With ranges that are not reversed the loop does not raise. *)
Lemma nonoverlap_loop_ordered xrange yrange ncoords d :
  xrange.1 <= xrange.2 -> yrange.1 <= yrange.2 ->
  forall fuel st pool niter r,
    nonoverlap_loop fuel xrange yrange ncoords d st pool niter = Some r ->
    is_ok r = true.
Proof.
  intros Hx Hy. induction fuel as [|fuel IH]; intros st pool niter r;
    [discriminate|].
  rewrite nonoverlap_loop_unfold.
  destruct (length pool <? ncoords)%nat; [|by intros [= <-]].
  destruct (20 <? niter)%nat; [by intros [= <-]|].
  rewrite (rng_uniform_ordered st _ _ ncoords Hx).
  destruct (Make.uniform_n uniform_draw st xrange.1 xrange.2 ncoords)
    as [x_new st1].
  rewrite (rng_uniform_ordered st1 _ _ ncoords Hy).
  destruct (Make.uniform_n uniform_draw st1 yrange.1 yrange.2 ncoords)
    as [y_new st2].
  apply IH.
Qed.

(** A result does not depend on the fuel left over. *)
Lemma nonoverlap_loop_fuel fuel xrange yrange ncoords d (st : rng) pool niter r :
  nonoverlap_loop fuel xrange yrange ncoords d st pool niter = Some r ->
  nonoverlap_loop (S fuel) xrange yrange ncoords d st pool niter = Some r.
Proof.
  revert st pool niter.
  induction fuel as [|fuel IH]; intros st pool niter; [discriminate|].
  intros Hrun. rewrite nonoverlap_loop_unfold in Hrun.
  rewrite nonoverlap_loop_unfold.
  destruct (length pool <? ncoords)%nat; [|done].
  destruct (20 <? niter)%nat; [done|].
  destruct (Make.rng_uniform uniform_draw st xrange.1 xrange.2 _)
    as [[x_new st1]|e]; [|done].
  destruct (Make.rng_uniform uniform_draw st1 yrange.1 yrange.2 _)
    as [[y_new st2]|e]; [|done].
  by apply IH.
Qed.

(** C2.  The sampler leaves its loop with the fuel given to it.  Every
    set of coordinates it returns is pairwise at least [min_separation]
    apart and has no more points than the count requested.  It returns
    such a set whenever neither range is reversed; on a reversed range
    the generator refuses the draw of the first round. *)
Theorem nonoverlap_coords_separated xrange yrange (ncoords : nat)
    (min_separation : R) seed entropy :
  (exists r,
     _make_nonoverlap_coords xrange yrange ncoords min_separation seed entropy
     = Some r)
  /\ (forall coords warnings,
        _make_nonoverlap_coords xrange yrange ncoords min_separation seed entropy
        = Some (Ok (coords, warnings)) ->
        Make.separated min_separation coords
        /\ (length coords <= ncoords)%nat)
  /\ (xrange.1 <= xrange.2 -> yrange.1 <= yrange.2 ->
      exists coords warnings,
        _make_nonoverlap_coords xrange yrange ncoords min_separation seed entropy
        = Some (Ok (coords, warnings))).
Proof.
  unfold Make._make_nonoverlap_coords.
  destruct (nonoverlap_loop_spec xrange yrange ncoords min_separation 20
              (Make.default_rng seed_rng seed entropy) [] 1)
    as (r & Hrun & Hr); [lia|done|].
  rewrite Hrun. destruct r as [[[st pool] niter]|e].
  - destruct Hr as (Hsep & _ & _).
    assert (Hs : Make.separated min_separation (take ncoords pool)).
    { by apply separated_take, separated_from_rest_separated. }
    assert (Hl : (length (take ncoords pool) <= ncoords)%nat).
    { rewrite length_take. lia. }
    destruct (length (take ncoords pool) <? ncoords)%nat;
      (split; [eauto|]); (split; [by intros coords warnings [= <- _]|]); eauto.
  - split; [eauto|]. split; [discriminate|]. intros Hx Hy.
    apply (nonoverlap_loop_ordered _ _ _ _ Hx Hy) in Hrun. discriminate.
Qed.

(** C7.  The loop leaves after at most 20 rounds ([niter] starts at 1
    and counts them), with the fuel given to it.  The sampler returns
    the pool cut to the count requested; when the loop left with fewer
    points than requested, that was at the cap, the pool is returned
    whole and the warning is issued; otherwise there is no warning.
    The only other exit is the exception of a draw from a reversed
    range, which the sampler passes on. *)
Theorem nonoverlap_rounds_capped xrange yrange (ncoords : nat)
    (min_separation : R) seed entropy :
  exists r,
    nonoverlap_loop 21 xrange yrange ncoords min_separation
      (Make.default_rng seed_rng seed entropy) [] 1 = Some r
    /\ match r with
       | Ok (st, pool, niter) =>
           exists warnings,
             (niter - 1 <= 20)%nat
             /\ _make_nonoverlap_coords xrange yrange ncoords min_separation
                  seed entropy
                = Some (Ok (take ncoords pool, warnings))
             /\ (length (take ncoords pool) <= ncoords)%nat
             /\ ((ncoords <= length pool)%nat /\ warnings = []
                 \/ (length pool < ncoords)%nat /\ niter = 21%nat
                    /\ take ncoords pool = pool
                    /\ warnings = [Make.AstropyUserWarning
                                     "Unable to produce ncoords coordinates."])
       | Raise e =>
           (xrange.2 < xrange.1 \/ yrange.2 < yrange.1)
           /\ _make_nonoverlap_coords xrange yrange ncoords min_separation
                seed entropy
              = Some (Raise e)
       end.
Proof.
  unfold Make._make_nonoverlap_coords.
  destruct (nonoverlap_loop_spec xrange yrange ncoords min_separation 20
              (Make.default_rng seed_rng seed entropy) [] 1)
    as (r & Hrun & Hr); [lia|done|].
  rewrite Hrun. exists r. split; [done|].
  destruct r as [[[st pool] niter]|e]; [|by destruct Hr].
  destruct Hr as (_ & Hn & Hexit).
  assert (Hl : (length (take ncoords pool) <= ncoords)%nat).
  { rewrite length_take. lia. }
  destruct (Nat.ltb_spec (length (take ncoords pool)) ncoords) as [Hlt|Hge];
    eexists; (split; [lia|]); (split; [done|]); (split; [done|]).
  - right. rewrite length_take in Hlt.
    assert (Hp : (length pool < ncoords)%nat) by lia.
    specialize (Hexit Hp).
    split; [done|]. split; [lia|]. split; [|done].
    apply take_ge. lia.
  - left. rewrite length_take in Hge. split; [lia|done].
Qed.

End sampler.

(** *** A packing that cannot succeed

    Two coordinates are requested at least 1 apart from a generator that
    always draws the same point: every round rejects both candidates, the
    loop leaves at the cap and the sampler warns. *)

Open Scope R_scope.

Lemma distance_self (p : Make.point) : Make.distance p p = 0.
Proof.
  unfold Make.distance.
  replace ((p.1 - p.1) ^ 2 + (p.2 - p.2) ^ 2) with 0 by ring. apply sqrt_0.
Qed.

Lemma crowded_round :
  Make.select (map (Make.far_enough 1) (Make.kdtree_query_2 [(0, 0); (0, 0)]))
              [(0, 0); (0, 0)] = ([] : list Make.point).
Proof.
  unfold Make.kdtree_query_2. simpl.
  rewrite !distance_self. rewrite !bool_decide_eq_false_2 by lra. done.
Qed.

Lemma crowded_step fuel (st : N) niter :
  (niter <= 20)%nat ->
  Make.nonoverlap_loop Instances.first_uniform (S fuel) (0, 10) (0, 10) 2 1 st [] niter
  = Make.nonoverlap_loop Instances.first_uniform fuel (0, 10) (0, 10) 2 1
      (N.succ (N.succ (N.succ (N.succ st)))) [] (niter + 1).
Proof.
  intros Hn. rewrite nonoverlap_loop_unfold.
  change (length ([] : list Make.point) <? 2)%nat with true. cbv iota.
  destruct (Nat.ltb_spec 20 niter) as [H|_]; [lia|].
  cbn [fst snd].
  rewrite (rng_uniform_ordered Instances.first_uniform st 0 10 2) by lra.
  cbn [Make.uniform_n Instances.first_uniform].
  rewrite (rng_uniform_ordered Instances.first_uniform _ 0 10 2) by lra.
  cbn [Make.uniform_n Instances.first_uniform fst snd zip zip_with app].
  destruct (niter =? 1)%nat; by rewrite crowded_round.
Qed.

Lemma crowded_loop fuel (st : N) niter :
  (1 <= niter)%nat -> (21 <= niter + fuel)%nat ->
  exists st',
    Make.nonoverlap_loop Instances.first_uniform (S fuel) (0, 10) (0, 10) 2 1 st [] niter
    = Some (Ok (st', [], Nat.max niter 21)).
Proof.
  revert st niter. induction fuel as [|fuel IH]; intros st niter Hn Hfuel.
  - exists st. rewrite nonoverlap_loop_unfold.
    change (length ([] : list Make.point) <? 2)%nat with true. cbv iota.
    destruct (Nat.ltb_spec 20 niter) as [H|H]; [|exfalso; lia].
    by replace (Nat.max niter 21) with niter by lia.
  - destruct (Nat.le_gt_cases niter 20) as [H|H].
    + rewrite crowded_step by done.
      destruct (IH (N.succ (N.succ (N.succ (N.succ st)))) (niter + 1)%nat)
        as [st' Hrun]; [lia|lia|].
      exists st'. rewrite Hrun.
      by replace (Nat.max (niter + 1) 21) with (Nat.max niter 21) by lia.
    + exists st. rewrite nonoverlap_loop_unfold.
      change (length ([] : list Make.point) <? 2)%nat with true. cbv iota.
      destruct (Nat.ltb_spec 20 niter) as [_|H']; [|lia].
      by replace (Nat.max niter 21) with niter by lia.
Qed.

Lemma nonoverlap_crowded_warns :
  Make._make_nonoverlap_coords Instances.lcg_seed Instances.first_uniform
    (0, 10) (0, 10) 2 1 (Some 0%N) 0%N
  = Some (Ok ([], [Make.AstropyUserWarning
                      "Unable to produce ncoords coordinates."])).
Proof.
  unfold Make._make_nonoverlap_coords.
  destruct (crowded_loop 20 (Make.default_rng Instances.lcg_seed (Some 0%N) 0%N) 1)
    as [st' Hrun]; [lia|lia|].
  rewrite Hrun. reflexivity.
Qed.

Close Scope R_scope.

End NonOverlap.

(** ** Rendering model sources *)

Module Render.
Section make_model_sources_image.
Open Scope R_scope.
Variable C : Make.model_class.

Local Abbreviation model := (Make.model C).
Local Abbreviation params := (@Make.params C).

Lemma setattr_spec p v (m : model) r m' :
  Make.setattr C p (Make.PyFloat v) m = (r, m') ->
  (r = Ok tt /\ params m' = <[p := v]> (params m) /\ Make.validate C p v = true)
  \/ ((exists e, r = Raise e) /\ m' = m /\ Make.validate C p v <> true).
Proof.
  unfold Make.setattr. simpl. destruct (decide _) as [Hv|Hv]; intros [= <- <-].
  - left. done.
  - right. eauto.
Qed.

Lemma setattr_valid p v (m : model) :
  Make.validate C p v = true ->
  exists m', Make.setattr C p (Make.PyFloat v) m = (Ok tt, m')
             /\ params m' = <[p := v]> (params m).
Proof.
  intros Hv. unfold Make.setattr. simpl. destruct (decide _); [|done]. eauto.
Qed.

(** Assigning to a parameter the [Parameter] object of the same name
    stores the value it has: the model stays as it is. *)
Lemma setattr_parameter p (m : model) :
  is_Some (params m !! p) ->
  exists m', Make.setattr C p (Make.PyParameter p) m = (Ok tt, m')
             /\ params m' = params m.
Proof.
  intros [x Hx]. unfold Make.setattr. simpl. rewrite Hx.
  destruct (decide (Make.validate C p x = true)) as [Hv|Hv].
  - eexists. split; [done|]. simpl. by apply insert_id.
  - exfalso. apply Hv. by apply (Make.params_ok m p x).
Qed.

(** Reading the parameters to set does not change the model and yields
    the [Parameter] object of each. *)
Lemma save_params_spec (ps : list string) (m : model) :
  Forall (fun p => is_Some (params m !! p)) ps ->
  Make.save_params C ps m
  = (Ok (map (fun p => (p, Make.PyParameter p)) ps), m).
Proof.
  induction 1 as [|p ps [v Hp] _ Hrun]; simpl; [done|].
  unfold mbind, SE_bind, bind, Make.getattr. by rewrite Hp, Hrun.
Qed.

(** Assigning the parameters of a row touches only the parameters to
    set. *)
Lemma set_params_frame t i (ps : list string) (m : model) r m' :
  Make.set_params C t i ps m = (r, m') ->
  forall q, q ∉ ps -> params m' !! q = params m !! q.
Proof.
  revert m. induction ps as [|p ps IH]; intros m; simpl.
  - intros [= <- <-]. done.
  - unfold mbind, SE_bind, bind, Make.lift.
    destruct (Make.row_get t i p) as [v|e]; [|by intros [= <- <-]].
    destruct (Make.setattr C p (Make.PyFloat v) m) as [[[]|e] m1] eqn:Hset.
    + intros Hrun q Hq. apply not_elem_of_cons in Hq as [Hqp Hq].
      rewrite (IH _ Hrun q Hq).
      apply setattr_spec in Hset as [(_ & -> & _)|([e He] & _)]; [|done].
      by rewrite lookup_insert_ne.
    + intros [= <- <-] q Hq.
      apply setattr_spec in Hset as [(He & _)|(_ & -> & _)]; done.
Qed.

(** No assignment of a row removes a parameter. *)
Lemma set_params_keeps t i (ps : list string) (m : model) r m' :
  Make.set_params C t i ps m = (r, m') ->
  forall q, is_Some (params m !! q) -> is_Some (params m' !! q).
Proof.
  revert m. induction ps as [|p ps IH]; intros m; simpl.
  - intros [= <- <-]. done.
  - unfold mbind, SE_bind, bind, Make.lift.
    destruct (Make.row_get t i p) as [v|e]; [|by intros [= <- <-]].
    destruct (Make.setattr C p (Make.PyFloat v) m) as [[[]|e] m1] eqn:Hset.
    + intros Hrun q Hq. apply (IH _ Hrun).
      apply setattr_spec in Hset as [(_ & -> & _)|([e He] & _)]; [|done].
      destruct (decide (q = p)) as [->|Hne].
      * rewrite lookup_insert_eq. eauto.
      * by rewrite lookup_insert_ne.
    + intros [= <- <-] q Hq.
      apply setattr_spec in Hset as [(He & _)|(_ & -> & _)]; done.
Qed.

Lemma call_frame shape oversample (m1 : model) v m2 :
  (if bool_decide (oversample = 1) then Make.call_model C shape
   else Make.call_discretize C shape oversample) m1 = (v, m2) ->
  m2 = m1.
Proof.
  destruct (bool_decide _);
    unfold Make.call_model, Make.call_discretize; by intros [= _ <-].
Qed.

Lemma render_rows_frame shape t oversample (ps : list string) rows image
    (m : model) r m' :
  Make.render_rows C shape t oversample ps rows image m = (r, m') ->
  forall q, q ∉ ps -> params m' !! q = params m !! q.
Proof.
  revert image m. induction rows as [|i rows IH]; intros image m; simpl.
  - intros [= <- <-]. done.
  - unfold mbind, SE_bind, bind.
    destruct (Make.set_params C t i ps m) as [[[]|e] m1] eqn:Hset.
    + destruct ((if bool_decide (oversample = 1) then Make.call_model C shape
                 else Make.call_discretize C shape oversample) m1)
        as [[v|e] m2] eqn:Hev; apply call_frame in Hev as ->.
      * intros Hrun q Hq. rewrite (IH _ _ Hrun q Hq).
        by eapply set_params_frame.
      * intros [= <- <-] q Hq. by eapply set_params_frame.
    + intros [= <- <-] q Hq. by eapply set_params_frame.
Qed.

Lemma render_rows_keeps shape t oversample (ps : list string) rows image
    (m : model) r m' :
  Make.render_rows C shape t oversample ps rows image m = (r, m') ->
  forall q, is_Some (params m !! q) -> is_Some (params m' !! q).
Proof.
  revert image m. induction rows as [|i rows IH]; intros image m; simpl.
  - intros [= <- <-]. done.
  - unfold mbind, SE_bind, bind.
    destruct (Make.set_params C t i ps m) as [[[]|e] m1] eqn:Hset.
    + destruct ((if bool_decide (oversample = 1) then Make.call_model C shape
                 else Make.call_discretize C shape oversample) m1)
        as [[v|e] m2] eqn:Hev; apply call_frame in Hev as ->.
      * intros Hrun q Hq. apply (IH _ _ Hrun).
        by eapply set_params_keeps.
      * intros [= <- <-] q Hq. by eapply set_params_keeps.
    + intros [= <- <-] q Hq. by eapply set_params_keeps.
Qed.

(** The [finally] block assigns to each parameter its own [Parameter]
    object: it succeeds and leaves the values that the model has at that
    moment. *)
Lemma restore_params_spec (ps : list string) (m1 : model) :
  Forall (fun p => is_Some (params m1 !! p)) ps ->
  exists m2,
    Make.restore_params C (map (fun p => (p, Make.PyParameter p)) ps) m1
    = (Ok tt, m2)
    /\ params m2 = params m1.
Proof.
  revert m1. induction ps as [|p ps IH]; intros m1 Hps; simpl.
  - by exists m1.
  - apply Forall_cons in Hps as [Hp Hps].
    destruct (setattr_parameter p m1 Hp) as (m' & Hset & Hm').
    destruct (IH m') as (m2 & Hrun & Hm2).
    { by rewrite Hm'. }
    exists m2. unfold mbind, SE_bind, bind. rewrite Hset, Hrun.
    split; [done|]. by rewrite Hm2.
Qed.

(** The call returns what the loop over the rows returns, and leaves
    the model with the parameters that the loop left: the [finally]
    block changes none of them. *)
Lemma make_model_sources_image_final (shape : nat * nat)
    (source_table : Make.table) (oversample : R) (m : model) :
  exists r m1 m2,
    Make.render_rows C shape source_table oversample
      (filter (fun p => Make.is_param C m p = true) (Make.colnames source_table))
      (seq 0 (Make.table_len source_table))
      (replicate (shape.1 * shape.2) 0) m = (r, m1)
    /\ Make.make_model_sources_image C shape source_table oversample m = (r, m2)
    /\ params m2 = params m1.
Proof.
  set (ps := filter (fun p => Make.is_param C m p = true)
                    (Make.colnames source_table)).
  assert (Hps : Forall (fun p => is_Some (params m !! p)) ps).
  { apply Forall_forall. intros p Hp. apply list_elem_of_filter in Hp as [Hp _].
    unfold Make.is_param in Hp. by apply bool_decide_eq_true in Hp. }
  pose proof (save_params_spec ps m Hps) as Hsave.
  destruct (Make.render_rows C shape source_table oversample ps
              (seq 0 (Make.table_len source_table))
              (replicate (shape.1 * shape.2) 0) m) as [r m1] eqn:Hbody.
  destruct (restore_params_spec ps m1) as (m2 & Hfin & Hm2).
  { eapply Forall_impl; [exact Hps|]. intros p. by eapply render_rows_keeps. }
  exists r, m1, m2. split; [done|]. split; [|done].
  unfold Make.make_model_sources_image. fold ps.
  unfold mbind, SE_bind, bind. rewrite Hsave.
  unfold try_finally. by rewrite Hbody, Hfin.
Qed.

End make_model_sources_image.
End Render.

(** ** The store *)

Module Store.

Lemma frames_ret {A} n (a : A) (post : A -> Prop) in_store :
  post a -> (forall h, in_store a h) -> frames n (mret a) post in_store.
Proof.
  intros Hp Hs h r h' _ [= <- <-]. split; [done|]. split; [done|].
  by intros a' [= <-].
Qed.

Lemma frames_raise {A} n e (post : A -> Prop) in_store :
  frames n (raise e) post in_store.
Proof. intros h r h' _ [= <- <-]. by repeat split. Qed.

Lemma frames_bind {A B} n (m : M A) (k : A -> M B) post1 in1 post2 in2 :
  frames n m post1 in1 ->
  (forall a, post1 a -> frames n (k a) post2 in2) ->
  frames n (m ≫= k) post2 in2.
Proof.
  intros Hm Hk h r h' Hn. unfold mbind, SE_bind, bind.
  destruct (m h) as [[a|e] h1] eqn:Hrun.
  - destruct (Hm _ _ _ Hn Hrun) as (Hlen & Hsame & Hpost).
    destruct (Hpost a eq_refl) as [Ha _]. intros Hrun2.
    destruct (Hk a Ha h1 r h') as (Hlen2 & Hsame2 & Hpost2); [lia|done|].
    split; [lia|]. split; [|done].
    intros l Hl. by rewrite Hsame2, Hsame.
  - intros [= <- <-]. destruct (Hm _ _ _ Hn Hrun) as (Hlen & Hsame & _).
    by repeat split.
Qed.

Lemma frames_alloc n xs :
  frames n (alloc xs) (fun l => n <= l) (fun l h => l < length h).
Proof.
  intros h r h' Hn. unfold alloc. intros [= <- <-].
  rewrite length_app. simpl.
  split; [lia|]. split.
  - intros l Hl. apply lookup_app_l. lia.
  - intros a [= <-]. split; [done|]. lia.
Qed.

Lemma frames_load n l :
  frames n (load l) (fun _ => True) (fun _ _ => True).
Proof.
  intros h r h' _. unfold load.
  destruct (h !! l); intros [= <- <-]; by repeat split.
Qed.

Lemma frames_store n l xs :
  n <= l -> frames n (store l xs) (fun _ => True) (fun _ _ => True).
Proof.
  intros Hl h r h' _. unfold store.
  destruct (h !! l); intros [= <- <-]; [|by repeat split].
  rewrite length_insert. split; [done|]. split; [|done].
  intros l' Hl'. apply list_lookup_insert_ne. lia.
Qed.

Lemma frames_weaken {A} n (m : M A) (post post' : A -> Prop) in_store in' :
  frames n m post in_store ->
  (forall a, post a -> post' a) ->
  (forall a h, in_store a h -> in' a h) ->
  frames n m post' in'.
Proof.
  intros Hm Hp Hs h r h' Hn Hrun.
  destruct (Hm _ _ _ Hn Hrun) as (Hlen & Hsame & Hpost).
  split; [done|]. split; [done|]. intros a Ha.
  destruct (Hpost a Ha). split; auto.
Qed.

(** The last step of a function that returns a new array. *)
Lemma frames_alloc_ret {A} n xs (f : loc -> A) (b : A -> loc) :
  (forall l, b (f l) = l) ->
  frames n (l ← alloc xs; mret (f l))
         (fun a => n <= b a) (fun a h => b a < length h).
Proof.
  intros Hb h r h' Hn. unfold mbind, SE_bind, bind, alloc, mret, SE_ret, ret.
  intros [= <- <-]. rewrite length_app. simpl.
  split; [lia|]. split.
  - intros l Hl. apply lookup_app_l. lia.
  - intros a [= <-]. rewrite Hb. lia.
Qed.

Lemma returns_ret {St A} (a : A) (s : St) post :
  post a s -> returns (mret a) s post.
Proof. intros H. by exists a, s. Qed.

Lemma returns_bind {St A B} (m : SE St A) (k : A -> SE St B) s post :
  returns m s (fun a s' => returns (k a) s' post) ->
  returns (m ≫= k) s post.
Proof.
  intros (a & s' & Hm & b & s'' & Hk & Hpost).
  exists b, s''. unfold mbind, SE_bind, bind. by rewrite Hm.
Qed.

Lemma returns_alloc xs (h : heap) post :
  post (length h) (h ++ [xs]) -> returns (alloc xs) h post.
Proof. intros H. by eexists _, _. Qed.

Lemma returns_load l (h : heap) xs post :
  h !! l = Some xs -> post xs h -> returns (load l) h post.
Proof. intros Hl H. exists xs, h. unfold load. by rewrite Hl. Qed.

Lemma raises_raise {St A} (s : St) e : raises (@raise St A e) s e.
Proof. by exists s. Qed.

Lemma raises_bind {St A B} (m : SE St A) (k : A -> SE St B) s e :
  returns m s (fun a s' => raises (k a) s' e) -> raises (m ≫= k) s e.
Proof.
  intros (a & s' & Hm & s'' & Hk). exists s''.
  unfold mbind, SE_bind, bind. by rewrite Hm.
Qed.

Lemma raises_bind_l {St A B} (m : SE St A) (k : A -> SE St B) s e :
  raises m s e -> raises (m ≫= k) s e.
Proof.
  intros (s' & Hm). exists s'. unfold mbind, SE_bind, bind. by rewrite Hm.
Qed.

(** An in-place update of the buffer allocated last. *)
Lemma returns_store_last (h : heap) xs ys post :
  post tt (h ++ [ys]) -> returns (store (length h) ys) (h ++ [xs]) post.
Proof.
  intros H. exists tt, (h ++ [ys]). unfold store.
  rewrite list_lookup_middle by done. split; [|done]. f_equal.
  replace (length h) with (length h + 0)%nat by lia.
  by rewrite insert_app_r.
Qed.

Lemma opaque_frames {A} n (m : M A) :
  opaque_step n m -> frames n m (fun _ => True) (fun _ _ => True).
Proof. done. Qed.

Lemma opaque_ret {A} n (a : A) : opaque_step n (mret a).
Proof. by apply frames_ret. Qed.

Lemma opaque_raise {A} n e : opaque_step n (@raise heap A e).
Proof. apply frames_raise. Qed.

Lemma opaque_load n l : opaque_step n (load l).
Proof. apply frames_load. Qed.

Lemma opaque_alloc n xs : opaque_step n (alloc xs).
Proof. eapply frames_weaken; [apply frames_alloc|done|done]. Qed.

Lemma opaque_bind {A B} n (m : M A) (k : A -> M B) :
  opaque_step n m -> (forall a, opaque_step n (k a)) ->
  opaque_step n (m ≫= k).
Proof. intros Hm Hk. eapply frames_bind; [exact Hm|]. intros a _. apply Hk. Qed.

End Store.

(** ** Rounding to binary64 *)

Module Float64.
Import Instances.
Open Scope R_scope.

(** The powers of two. *)
Lemma pow2_pos (e : Z) : 0 < pow2 e.
Proof. unfold pow2. apply powerRZ_lt. lra. Qed.

Lemma pow2_add (e d : Z) : pow2 (e + d) = pow2 e * pow2 d.
Proof. unfold pow2. apply powerRZ_add. lra. Qed.













Lemma div_pow2_add (e d : Z) : pow2 (e + d) / pow2 e = pow2 d.
Proof. rewrite pow2_add. pose proof (pow2_pos e). field. lra. Qed.























Close Scope R_scope.
End Float64.

(** ** Total error *)

Module TotalError.
Import Store.
Section calc_total_error.
Open Scope R_scope.
Context {U : Type}.
Variable unit_eqb : U -> U -> bool.
Variable unit_mul : U -> U -> U.
Variables electron photon : U.
Variable broadcast_add :
  list nat -> list R -> list nat -> list R -> option (list nat * list R).
Variable rnd : R -> R.

Local Abbreviation calc_total_error :=
  (Errors.calc_total_error unit_eqb unit_mul electron photon broadcast_add rnd).
Local Abbreviation gain_like := (@Errors.gain_like U).

Ltac opaque :=
  repeat first
    [ apply opaque_ret | apply opaque_raise | apply opaque_load
    | apply opaque_alloc
    | apply opaque_bind; [|intros ?]
    | match goal with
      | |- opaque_step _ (if ?c then _ else _) => destruct c
      | |- opaque_step _ (match ?x with _ => _ end) => destruct x
      end ].

Lemma np_asanyarray_opaque n (x : array_like U) :
  opaque_step n (Errors.np_asanyarray x).
Proof. unfold Errors.np_asanyarray. opaque. Qed.

Lemma gain_scalar_opaque n (g : gain_like) :
  opaque_step n (Errors.gain_scalar g).
Proof. unfold Errors.gain_scalar. opaque. Qed.

Lemma gain_array_opaque n (g : gain_like) :
  opaque_step n (Errors.gain_array g).
Proof.
  unfold Errors.gain_array. destruct g; [opaque|apply np_asanyarray_opaque].
Qed.

(** The call writes only into buffers that it allocated itself, and
    the array it returns lies in one of them. *)
Lemma calc_total_error_frames n data bkg_error effective_gain :
  frames n (calc_total_error data bkg_error effective_gain)
         (fun r => (n <= buf r)%nat) (fun r h => (buf r < length h)%nat).
Proof.
  unfold Errors.calc_total_error.
  eapply frames_bind; [apply np_asanyarray_opaque|]. intros d _.
  eapply frames_bind; [apply np_asanyarray_opaque|]. intros b _.
  cbv zeta.
  eapply frames_bind; [apply opaque_frames; opaque|]. intros _ _.
  eapply frames_bind; [apply opaque_frames; opaque|]. intros _ _.
  eapply frames_bind.
  { apply opaque_frames.
    destruct (negb (Errors.isiterable effective_gain)).
    - apply opaque_bind; [apply gain_scalar_opaque|]. intros v. opaque.
    - apply opaque_bind; [apply gain_array_opaque|]. intros g. opaque. }
  intros g _.
  eapply frames_bind; [apply frames_load|]. intros gs _.
  eapply frames_bind; [apply opaque_frames; opaque|]. intros _ _.
  eapply frames_bind; [apply frames_load|]. intros xs _.
  eapply frames_bind; [apply frames_alloc|]. intros sv Hsv. simpl buf.
  eapply frames_bind; [apply frames_load|]. intros gs' _.
  eapply frames_bind; [apply frames_load|]. intros cur _.
  eapply frames_bind; [by apply frames_store|]. intros _ _.
  eapply frames_bind; [apply frames_load|]. intros cur' _.
  eapply frames_bind; [by apply frames_store|]. intros _ _.
  eapply frames_bind; [apply frames_load|]. intros cur'' _.
  eapply frames_bind; [apply frames_alloc|]. intros mx _.
  eapply frames_bind; [apply frames_load|]. intros bs _.
  eapply frames_bind; [apply frames_alloc|]. intros sq _.
  eapply frames_bind; [apply frames_load|]. intros sqs _.
  eapply frames_bind; [apply frames_load|]. intros svs _.
  destruct (Errors.np_add _ _ _ _ _ _) as [[sh sums]|e]; [|apply frames_raise].
  eapply frames_bind; [apply frames_alloc|]. intros sm _.
  eapply frames_bind; [apply frames_load|]. intros tot _.
  by apply (frames_alloc_ret n _ (fun l => mk_ndarray l sh (unit_of b)) buf).
Qed.

(** *** The run on valid arguments *)

Lemma represents_ext h ext (x : array_like U) sh xs :
  Errors.represents h x sh xs -> Errors.represents (h ++ ext) x sh xs.
Proof.
  unfold Errors.represents. destruct x as [a|sh' xs']; [|done].
  intros [[Hl Hs] Hn]. split; [|done]. split; [|done].
  by apply lookup_app_l_Some.
Qed.

Lemma gain_represents_ext h ext (g : gain_like) sh gs :
  Errors.gain_represents h g sh gs ->
  Errors.gain_represents (h ++ ext) g sh gs.
Proof.
  unfold Errors.gain_represents. destruct g as [v u|[a|sh' xs']]; [done| |done].
  destruct (decide (shape a = [])).
  - intros (v & Hl & ->). exists v. split; [|done]. by apply lookup_app_l_Some.
  - apply represents_ext.
Qed.

Lemma np_asanyarray_returns h (x : array_like U) sh xs post :
  Errors.represents h x sh xs ->
  (forall a ext, (h ++ ext) !! buf a = Some xs -> shape a = sh ->
                 unit_of a = Errors.arg_unit x -> post a (h ++ ext)) ->
  returns (Errors.np_asanyarray x) h post.
Proof.
  intros [Hx Hn] Hpost. destruct x as [a|sh' xs']; simpl.
  - destruct Hx as [Hl Hs]. apply returns_ret.
    specialize (Hpost a []). rewrite app_nil_r in Hpost. by apply Hpost.
  - destruct Hx as [-> ->]. apply returns_bind, returns_alloc, returns_ret.
    apply Hpost; [|done|done]. simpl. by apply list_lookup_middle.
Qed.

Lemma gain_has_unit_spec (g : gain_like) :
  Errors.gain_has_unit g = bool_decide (is_Some (Errors.gain_unit g)).
Proof. by destruct g as [v u|[a|sh xs]]. Qed.

Lemma existsb_negative_gain (gs : list R) :
  Forall (fun g => 0 <= g) gs ->
  existsb (fun g => bool_decide (g < 0)) gs = false.
Proof.
  induction 1 as [|g gs Hg _ IH]; simpl; [done|].
  rewrite IH, bool_decide_eq_false_2; [done|lra].
Qed.

(** The guards on the units pass when the units are consistent. *)
Lemma unit_guards (data bkg_error : array_like U) (g : gain_like)
    (d b : ndarray U) :
  Errors.units_consistent unit_eqb unit_mul electron photon data bkg_error g ->
  unit_of d = Errors.arg_unit data -> unit_of b = Errors.arg_unit bkg_error ->
  let has_unit := [bool_decide (is_Some (unit_of d));
                   bool_decide (is_Some (unit_of b));
                   Errors.gain_has_unit g] in
  existsb (fun x => x) has_unit && negb (forallb (fun x => x) has_unit) = false
  /\ (forallb (fun x => x) has_unit = false
      \/ forallb (fun x => x) has_unit = true /\
         exists ud ub ug, unit_of d = Some ud /\ unit_of b = Some ub /\
           Errors.gain_unit g = Some ug /\ unit_eqb ud ub = true /\
           existsb (unit_eqb (unit_mul ud ug)) [electron; photon] = true).
Proof.
  intros Hu Hd Hb. rewrite gain_has_unit_spec, Hd, Hb.
  destruct Hu as [(-> & -> & ->)|(ud & ub & ug & -> & -> & -> & Heq & Hcount)].
  - split; [done|by left].
  - split; [done|]. right. split; [done|].
    exists ud, ub, ug. repeat split; try done.
    simpl. destruct Hcount as [->| ->]; [done|]. by rewrite orb_true_r.
Qed.

Ltac lookup_tac :=
  solve [ repeat first
            [ eassumption
            | apply list_lookup_middle; reflexivity
            | apply lookup_app_l_Some ] ].

Ltac run_step :=
  cbv beta;
  first
    [ apply returns_bind
    | apply returns_ret
    | apply returns_alloc
    | apply returns_store_last
    | eapply returns_load; [lookup_tac|] ].

(** The gain as an array of the shape of the data. *)
Lemma gain_block_returns h (g : gain_like) (d : ndarray U) gs tag post :
  Errors.gain_represents h g (shape d) gs ->
  (forall a ext, (h ++ ext) !! buf a = Some gs -> shape a = shape d ->
                 post a (h ++ ext)) ->
  returns
    (if negb (Errors.isiterable g) then
       v ← Errors.gain_scalar g;
       l ← alloc (replicate (size_of (shape d)) (0 + v));
       mret (mk_ndarray l (shape d) tag)
     else
       a ← Errors.gain_array g;
       if bool_decide (shape a <> shape d)
       then raise (ValueError "If input effective_gain is 2D, then it must have the same shape as the input data.")
       else mret a) h post.
Proof.
  intros Hg Hpost. destruct g as [v u|[a|sh xs]]; simpl in *.
  - subst gs. repeat run_step. apply Hpost; [|done].
    rewrite Rplus_0_l. simpl. by apply list_lookup_middle.
  - destruct (decide (shape a = [])) as [Hs|Hs].
    + destruct Hg as (v & Hl & ->).
      rewrite (bool_decide_eq_true_2 _ Hs). simpl.
      repeat run_step. apply Hpost; [|done].
      rewrite Rplus_0_l. simpl. by apply list_lookup_middle.
    + destruct Hg as [[Hl Hsh] Hn].
      rewrite (bool_decide_eq_false_2 _ Hs). simpl.
      repeat run_step. rewrite bool_decide_eq_false_2 by (intros H; by apply H).
      run_step. specialize (Hpost a []). rewrite app_nil_r in Hpost.
      by apply Hpost.
  - destruct Hg as [[-> ->] Hn]. repeat run_step. simpl.
    rewrite bool_decide_eq_false_2 by (intros H; by apply H).
    run_step. apply Hpost; [|done]. simpl. by apply list_lookup_middle.
Qed.

(** On valid arguments the call returns a new array of the shape of
    the data that holds [total_error_values]. *)
Lemma calc_total_error_run h (data bkg_error : array_like U)
    (effective_gain : gain_like) sh I bkg gs :
  Errors.represents h data sh I ->
  Errors.represents h bkg_error sh bkg ->
  Errors.gain_represents h effective_gain sh gs ->
  Forall (fun g => 0 <= g) gs ->
  Errors.units_consistent unit_eqb unit_mul electron photon
    data bkg_error effective_gain ->
  returns (calc_total_error data bkg_error effective_gain) h
    (fun r h' => shape r = sh
                 /\ h' !! buf r = Some (Errors.total_error_values rnd I bkg gs)).
Proof.
  intros Hdata Hbkg Hgain Hpos Hunits.
  unfold Errors.calc_total_error.
  apply returns_bind. eapply np_asanyarray_returns; [exact Hdata|].
  intros d ext1 Hd Hdsh Hdu.
  apply (represents_ext _ ext1) in Hbkg.
  apply (gain_represents_ext _ ext1) in Hgain.
  apply returns_bind. eapply np_asanyarray_returns; [exact Hbkg|].
  intros b ext2 Hb Hbsh Hbu.
  apply (gain_represents_ext _ ext2) in Hgain.
  apply (lookup_app_l_Some _ ext2) in Hd.
  cbv zeta.
  destruct (unit_guards data bkg_error effective_gain d b Hunits Hdu Hbu)
    as [Hmixed Hall].
  rewrite Hmixed. apply returns_bind, returns_ret.
  assert (Hneg := existsb_negative_gain gs Hpos).
  subst sh.
  destruct Hall as [Hu|(Hu & ud & ub & ug & Hud & Hub & Hug & Heq & Hcount)];
    rewrite Hu; [|rewrite Hud, Hub, Hug, Heq, Hcount; cbn [negb]];
    apply returns_bind, returns_ret;
    apply returns_bind;
    (eapply gain_block_returns; [exact Hgain|]);
    intros g ext3 Hg Hgsh; cbn [buf shape unit_of];
    run_step; run_step; rewrite Hneg; repeat run_step;
    unfold Errors.np_add; rewrite (decide_True _ _ Hbsh);
    repeat run_step; (split; [done|]); by apply list_lookup_middle.
Qed.

Lemma lookup_map_Some {A B} (f : A -> B) (l : list A) i x :
  l !! i = Some x -> map f l !! i = Some (f x).
Proof. intros H. change (map f l) with (f <$> l). by rewrite list_lookup_fmap, H. Qed.

Lemma lookup_zip_with_Some_2 {A B C} (f : A -> B -> C) l k i x y :
  l !! i = Some x -> k !! i = Some y -> zip_with f l k !! i = Some (f x y).
Proof. intros Hl Hk. apply lookup_zip_with_Some. eauto. Qed.

Lemma lookup_zip_Some {A B} (l : list A) (k : list B) i x y :
  l !! i = Some x -> k !! i = Some y -> zip l k !! i = Some (x, y).
Proof. apply lookup_zip_with_Some_2. Qed.

Lemma total_error_values_length (I bkg gs : list R) n :
  length I = n -> length bkg = n -> length gs = n ->
  length (Errors.total_error_values rnd I bkg gs) = n.
Proof.
  intros HI Hb Hg. unfold Errors.total_error_values, Errors.masked_zero,
    Errors.masked_divide.
  rewrite !length_map, !length_zip_with, !length_map, !length_zip_with,
    !length_map. lia.
Qed.

Lemma total_error_values_lookup (I bkg gs : list R) i Ii bi gi :
  I !! i = Some Ii -> bkg !! i = Some bi -> gs !! i = Some gi ->
  Errors.total_error_values rnd I bkg gs !! i
  = Some (rnd (sqrt (rnd (rnd (bi ^ 2)
                          + Errors.source_variance_pixel rnd Ii gi)))).
Proof.
  intros HI Hb Hg. unfold Errors.total_error_values, Errors.masked_zero,
    Errors.masked_divide, Errors.source_variance_pixel.
  pose proof (lookup_map_Some (fun g => bool_decide (g <> 0)) _ _ _ Hg) as Hm.
  pose proof (lookup_zip_Some _ _ _ _ _ Hm Hg) as Hmg.
  pose proof (lookup_zip_with_Some_2
                (fun (mg : bool * R) s => if mg.1 then rnd (s / mg.2) else s)
                _ _ _ _ _ Hmg HI) as Hdiv.
  pose proof (lookup_zip_with_Some_2
                (fun (m : bool) s => if m then s else 0)
                _ _ _ _ _ Hm Hdiv) as Hzero.
  pose proof (lookup_map_Some (fun s => Rmax s 0) _ _ _ Hzero) as Hmax.
  pose proof (lookup_map_Some (fun b => rnd (b ^ 2)) _ _ _ Hb) as Hsq.
  pose proof (lookup_zip_with_Some_2 (fun x y => rnd (x + y))
                _ _ _ _ _ Hsq Hmax) as Hsum.
  rewrite (lookup_map_Some (fun x => rnd (sqrt x)) _ _ _ Hsum). simpl.
  do 5 f_equal. by destruct (bool_decide (gi <> 0)).
Qed.

(** In exact arithmetic and for a gain that is not negative the code
    computes the shot-noise term of the specification. *)
Lemma source_variance_pixel_spec (I g : R) :
  (forall x, rnd x = x) ->
  0 <= g -> Errors.source_variance_pixel rnd I g = Errors.shot_noise_term I g.
Proof.
  intros Hid Hg. unfold Errors.source_variance_pixel, Errors.shot_noise_term.
  rewrite Hid.
  destruct (decide (g = 0)) as [->|Hne].
  - rewrite bool_decide_eq_false_2 by (intros H; by apply H).
    apply Rmax_left. lra.
  - rewrite bool_decide_eq_true_2 by done.
    assert (Hpos : 0 < / g) by (apply Rinv_0_lt_compat; lra).
    destruct (decide (I < 0)) as [HI|HI].
    + apply Rmax_right. unfold Rdiv. nra.
    + apply Rmax_left. unfold Rdiv. nra.
Qed.



Lemma gain_represents_length h (g : gain_like) sh gs :
  Errors.gain_represents h g sh gs -> length gs = size_of sh.
Proof.
  unfold Errors.gain_represents, Errors.represents.
  destruct g as [v u|[a|sh' xs]].
  - intros ->. apply length_replicate.
  - destruct (decide (shape a = [])).
    + intros (v & _ & ->). apply length_replicate.
    + by intros [_ ?].
  - by intros [_ ?].
Qed.

Lemma sqrt_square_ge (b s : R) : 0 <= s -> b <= sqrt (b ^ 2 + s).
Proof.
  intros Hs. eapply Rle_trans; [apply Rle_abs|].
  rewrite <- sqrt_Rsqr_abs. apply sqrt_le_1_alt. unfold Rsqr. lra.
Qed.



(** C10.  Whenever the call returns, every buffer that existed before
    the call holds what it held, among them those of the data, of the
    background error and of the gain; and the array returned lies in a
    buffer that did not exist before. *)
Theorem calc_total_error_frame h (data bkg_error : array_like U)
    (effective_gain : gain_like) r h' :
  calc_total_error data bkg_error effective_gain h = (Ok r, h') ->
  (forall l xs, h !! l = Some xs -> h' !! l = Some xs)
  /\ h !! buf r = None
  /\ is_Some (h' !! buf r).
Proof.
  intros Hrun.
  destruct (calc_total_error_frames (length h) data bkg_error effective_gain
              h (Ok r) h') as (_ & Hsame & Hpost); [done|done|].
  destruct (Hpost r eq_refl) as [Hfresh Hin]. split; [|split].
  - intros l xs Hl. rewrite Hsame; [done|]. by eapply lookup_lt_Some.
  - by apply lookup_ge_None.
  - by apply lookup_lt_is_Some.
Qed.

Lemma np_asanyarray_total h (x : array_like U) post :
  (forall a h1, unit_of a = Errors.arg_unit x -> post a h1) ->
  returns (Errors.np_asanyarray x) h post.
Proof.
  intros Hpost. destruct x as [a|sh xs]; simpl.
  - apply returns_ret. by apply Hpost.
  - apply returns_bind, returns_alloc, returns_ret. by apply Hpost.
Qed.

(** C6.  When some but not all of the three arguments carry a unit the
    call raises its [ValueError].  When all three carry one, it raises
    the [ValueError] on the units of data and background error if they
    differ, and otherwise the [UnitsError] if the unit of data times the
    unit of the gain is neither electron nor photon. *)
Theorem calc_total_error_unit_errors h (data bkg_error : array_like U)
    (effective_gain : gain_like) :
  ((is_Some (Errors.arg_unit data) \/ is_Some (Errors.arg_unit bkg_error)
    \/ is_Some (Errors.gain_unit effective_gain)) ->
   (Errors.arg_unit data = None \/ Errors.arg_unit bkg_error = None
    \/ Errors.gain_unit effective_gain = None) ->
   raises (calc_total_error data bkg_error effective_gain) h
     (ValueError "If any of data, bkg_error, or effective_gain has units, then they all must all have units."))
  /\ (forall ud ub ug,
        Errors.arg_unit data = Some ud ->
        Errors.arg_unit bkg_error = Some ub ->
        Errors.gain_unit effective_gain = Some ug ->
        unit_eqb ud ub = false ->
        raises (calc_total_error data bkg_error effective_gain) h
          (ValueError "data and bkg_error must have the same units."))
  /\ (forall ud ub ug,
        Errors.arg_unit data = Some ud ->
        Errors.arg_unit bkg_error = Some ub ->
        Errors.gain_unit effective_gain = Some ug ->
        unit_eqb ud ub = true ->
        unit_eqb (unit_mul ud ug) electron = false ->
        unit_eqb (unit_mul ud ug) photon = false ->
        raises (calc_total_error data bkg_error effective_gain) h
          (UnitsError "(data * effective_gain) must have count units (e.g., u.electron or u.photon).")).
Proof.
  split; [|split].
  - intros Hsome Hnone. unfold Errors.calc_total_error.
    apply raises_bind, np_asanyarray_total. intros d h1 Hd.
    apply raises_bind, np_asanyarray_total. intros b h2 Hb.
    cbv zeta. rewrite gain_has_unit_spec, Hd, Hb.
    apply raises_bind_l.
    destruct (Errors.arg_unit data), (Errors.arg_unit bkg_error),
      (Errors.gain_unit effective_gain); simpl;
      try apply raises_raise;
      destruct Hsome as [[? [=]]|[[? [=]]|[? [=]]]];
      destruct Hnone as [[=]|[[=]|[=]]].
  - intros ud ub ug Hud Hub Hug Hne. unfold Errors.calc_total_error.
    apply raises_bind, np_asanyarray_total. intros d h1 Hd.
    apply raises_bind, np_asanyarray_total. intros b h2 Hb.
    cbv zeta. rewrite gain_has_unit_spec, Hd, Hb, Hud, Hub, Hug. simpl.
    apply raises_bind, returns_ret. rewrite Hne. simpl.
    apply raises_bind_l, raises_raise.
  - intros ud ub ug Hud Hub Hug Heq He Hp. unfold Errors.calc_total_error.
    apply raises_bind, np_asanyarray_total. intros d h1 Hd.
    apply raises_bind, np_asanyarray_total. intros b h2 Hb.
    cbv zeta. rewrite gain_has_unit_spec, Hd, Hb, Hud, Hub, Hug. simpl.
    apply raises_bind, returns_ret. rewrite Heq, He, Hp. simpl.
    apply raises_bind_l, raises_raise.
Qed.

End calc_total_error.

(** *** Exact arithmetic *)

Section exact_arithmetic.
Open Scope R_scope.
Context {U : Type}.
Variable unit_eqb : U -> U -> bool.
Variable unit_mul : U -> U -> U.
Variables electron photon : U.
Variable broadcast_add :
  list nat -> list R -> list nat -> list R -> option (list nat * list R).

Local Abbreviation calc_total_error :=
  (Errors.calc_total_error unit_eqb unit_mul electron photon broadcast_add
     (fun x => x)).
Local Abbreviation gain_like := (@Errors.gain_like U).

(** C1.  For data and background error of one shape, a gain that is
    a number or an array of that shape and nowhere negative, and units
    used by none or consistently by all, the call returns an array of
    that shape whose item at each pixel is
    [sqrt (bkg^2 + s)], with [s] the shot-noise term [I/g], zero where
    [g = 0] and zero where [I < 0]. *)
Theorem calc_total_error_formula h (data bkg_error : array_like U)
    (effective_gain : gain_like) sh I bkg gs :
  Errors.represents h data sh I ->
  Errors.represents h bkg_error sh bkg ->
  Errors.gain_represents h effective_gain sh gs ->
  Forall (fun g => 0 <= g) gs ->
  Errors.units_consistent unit_eqb unit_mul electron photon
    data bkg_error effective_gain ->
  exists r h' out,
    calc_total_error data bkg_error effective_gain h = (Ok r, h')
    /\ shape r = sh
    /\ h' !! buf r = Some out
    /\ length out = size_of sh
    /\ forall i Ii bi gi,
         I !! i = Some Ii -> bkg !! i = Some bi -> gs !! i = Some gi ->
         out !! i = Some (sqrt (bi ^ 2 + Errors.shot_noise_term Ii gi)).
Proof.
  intros Hdata Hbkg Hgain Hpos Hunits.
  destruct (calc_total_error_run unit_eqb unit_mul electron photon
              broadcast_add (fun x => x)
              h data bkg_error effective_gain sh I bkg gs)
    as (r & h' & Hrun & Hsh & Hout); try done.
  exists r, h', (Errors.total_error_values (fun x => x) I bkg gs).
  split; [done|]. split; [done|]. split; [done|]. split.
  - apply total_error_values_length.
    + by destruct Hdata.
    + by destruct Hbkg.
    + by eapply gain_represents_length.
  - intros i Ii bi gi HI Hb Hg.
    rewrite (total_error_values_lookup _ _ _ _ _ _ _ _ HI Hb Hg).
    cbv beta. rewrite source_variance_pixel_spec; [done|done|].
    rewrite Forall_forall in Hpos. apply Hpos.
    by eapply list_elem_of_lookup_2.
Qed.

End exact_arithmetic.

(** *** The statements on an image of three pixels

    The store holds the data [4; -1; 9] and the background error
    [3; 3; 3]; units are the exponents of electron, photon and second. *)

Import Instances.

Lemma calc_total_error_formula_witness :
  exists r h' out,
    Errors.calc_total_error exps_eqb exps_mul u_electron u_photon no_broadcast
      (fun x => x)
      (Arr (mk_ndarray 0%nat [3%nat] None)) (Arr (mk_ndarray 1%nat [3%nat] None))
      (Errors.GScalar 2 None) [[4; -1; 9]; [3; 3; 3]]%R = (Ok r, h')
    /\ shape r = [3%nat]
    /\ h' !! buf r = Some out
    /\ length out = size_of [3%nat]
    /\ forall i Ii bi gi,
         [4; -1; 9]%R !! i = Some Ii -> [3; 3; 3]%R !! i = Some bi ->
         [2; 2; 2]%R !! i = Some gi ->
         out !! i = Some (sqrt (bi ^ 2 + Errors.shot_noise_term Ii gi))%R.
Proof.
  apply (calc_total_error_formula exps_eqb exps_mul u_electron u_photon
           no_broadcast [[4; -1; 9]; [3; 3; 3]]%R
           (Arr (mk_ndarray 0%nat [3%nat] None)) (Arr (mk_ndarray 1%nat [3%nat] None))
           (Errors.GScalar 2 None) [3%nat] [4; -1; 9]%R [3; 3; 3]%R [2; 2; 2]%R).
  - repeat split; reflexivity.
  - repeat split; reflexivity.
  - reflexivity.
  - repeat constructor; lra.
  - left. repeat split; reflexivity.
Defined.



(** The data carries a unit and the gain is a bare number. *)
Lemma calc_total_error_unit_errors_witness :
  raises
    (Errors.calc_total_error exps_eqb exps_mul u_electron u_photon no_broadcast
       (fun x => x)
       (Arr (mk_ndarray 0%nat [3%nat] (Some u_electron_per_s)))
       (Arr (mk_ndarray 1%nat [3%nat] (Some u_electron_per_s)))
       (Errors.GScalar 100 None))
    [[4; -1; 9]; [3; 3; 3]]%R
    (ValueError "If any of data, bkg_error, or effective_gain has units, then they all must all have units.").
Proof.
  apply (proj1 (calc_total_error_unit_errors exps_eqb exps_mul u_electron
                  u_photon no_broadcast (fun x => x)
                  [[4; -1; 9]; [3; 3; 3]]%R
                  (Arr (mk_ndarray 0%nat [3%nat] (Some u_electron_per_s)))
                  (Arr (mk_ndarray 1%nat [3%nat] (Some u_electron_per_s)))
                  (Errors.GScalar 100 None))).
  - left. eexists. reflexivity.
  - right. right. reflexivity.
Defined.

(** The gain is an array here, so that all three arguments are buffers
    of the store. *)
Lemma calc_total_error_frame_witness :
  exists r h',
    Errors.calc_total_error exps_eqb exps_mul u_electron u_photon no_broadcast
      (fun x => x)
      (Arr (mk_ndarray 0%nat [3%nat] None)) (Arr (mk_ndarray 1%nat [3%nat] None))
      (Errors.GArray (Arr (mk_ndarray 2%nat [3%nat] None)))
      [[4; -1; 9]; [3; 3; 3]; [2; 0; 2]]%R = (Ok r, h')
    /\ h' !! 0%nat = Some [4; -1; 9]%R
    /\ h' !! 1%nat = Some [3; 3; 3]%R
    /\ h' !! 2%nat = Some [2; 0; 2]%R
    /\ [[4; -1; 9]; [3; 3; 3]; [2; 0; 2]]%R !! buf r = None
    /\ is_Some (h' !! buf r).
Proof.
  destruct (calc_total_error_run exps_eqb exps_mul u_electron u_photon
              no_broadcast (fun x => x) [[4; -1; 9]; [3; 3; 3]; [2; 0; 2]]%R
              (Arr (mk_ndarray 0%nat [3%nat] None)) (Arr (mk_ndarray 1%nat [3%nat] None))
              (Errors.GArray (Arr (mk_ndarray 2%nat [3%nat] None)))
              [3%nat] [4; -1; 9]%R [3; 3; 3]%R [2; 0; 2]%R)
    as (r & h' & Hrun & _).
  - repeat split; reflexivity.
  - repeat split; reflexivity.
  - simpl. repeat split; reflexivity.
  - repeat constructor; lra.
  - left. repeat split; reflexivity.
  - exists r, h'.
    destruct (calc_total_error_frame exps_eqb exps_mul u_electron u_photon
                no_broadcast (fun x => x) _ _ _ _ r h' Hrun)
      as (Hsame & Hfresh & Hin).
    split; [exact Hrun|].
    split; [by apply Hsame|]. split; [by apply Hsame|]. split; [by apply Hsame|].
    split; [exact Hfresh | exact Hin].
Defined.

End TotalError.

(** ** Tables *)

Module Tables.

Lemma column_None (t : Make.table) name :
  Make.column t name = None <-> name ∉ Make.colnames t.
Proof.
  unfold Make.colnames. induction t as [|[n c] t IH]; simpl.
  - split; [intros _; apply not_elem_of_nil | done].
  - destruct (decide (n = name)) as [->|Hne].
    + split; [done|]. intros H. exfalso. apply H. left.
    + rewrite IH, not_elem_of_cons. split; [by intros ?|by intros [_ ?]].
Qed.

Lemma column_is_Some (t : Make.table) name :
  name ∈ Make.colnames t -> is_Some (Make.column t name).
Proof.
  intros Hin. destruct (Make.column t name) eqn:Hc; [done|].
  by apply column_None in Hc.
Qed.

Lemma column_is_Some_inv (t : Make.table) name :
  is_Some (Make.column t name) -> name ∈ Make.colnames t.
Proof.
  intros [c Hc]. destruct (decide (name ∈ Make.colnames t)) as [|Hn]; [done|].
  apply column_None in Hn. congruence.
Qed.

Lemma column_set_column (t : Make.table) name col :
  Make.column (Make.set_column t name col) name = Some col.
Proof.
  induction t as [|[n c] t IH]; simpl.
  - by rewrite decide_True.
  - destruct (decide (n = name)) as [->|Hne]; simpl.
    + by rewrite decide_True.
    + by rewrite decide_False.
Qed.

Lemma column_set_column_ne (t : Make.table) name other col :
  other <> name ->
  Make.column (Make.set_column t name col) other = Make.column t other.
Proof.
  intros Hne. induction t as [|[n c] t IH]; simpl.
  - by rewrite decide_False.
  - destruct (decide (n = name)) as [->|Hn]; simpl.
    + by rewrite !decide_False.
    + by rewrite IH.
Qed.

Lemma colnames_set_column_new (t : Make.table) name col :
  name ∉ Make.colnames t ->
  Make.colnames (Make.set_column t name col) = Make.colnames t ++ [name].
Proof.
  unfold Make.colnames. induction t as [|[n c] t IH]; simpl; [done|].
  intros Hnin. apply not_elem_of_cons in Hnin as [Hne Hnin].
  rewrite decide_False by done. simpl. f_equal. by apply IH.
Qed.

Lemma colnames_set_column_old (t : Make.table) name col :
  name ∈ Make.colnames t ->
  Make.colnames (Make.set_column t name col) = Make.colnames t.
Proof.
  unfold Make.colnames. induction t as [|[n c] t IH]; simpl.
  - intros H. by apply elem_of_nil in H.
  - intros Hin. destruct (decide (n = name)) as [->|Hne]; [done|].
    simpl. f_equal. apply IH. apply elem_of_cons in Hin as [->|]; done.
Qed.

Lemma table_len_set_column (t : Make.table) name col :
  t <> [] -> length col = Make.table_len t ->
  Make.table_len (Make.set_column t name col) = Make.table_len t.
Proof.
  destruct t as [|[n c] t]; [done|]. intros _ Hlen. simpl.
  by destruct (decide (n = name)).
Qed.

End Tables.

(** ** Noise images *)

Module NoiseImage.
Section make_noise_image.
Open Scope R_scope.
Context {rng : Type}.
Variable seed_rng : N -> rng.
Variable poisson_draw : rng -> R -> nat * rng.
Variable normal_draw : rng -> R -> R -> R * rng.
Variable poisson_lam_max : R.

Local Abbreviation make_noise_image :=
  (Make.make_noise_image seed_rng poisson_draw normal_draw poisson_lam_max).

Lemma normal_n_length st loc scale n :
  length (Make.normal_n normal_draw st loc scale n).1 = n.
Proof.
  revert st. induction n as [|n IH]; intros st; simpl; [done|].
  destruct (normal_draw st loc scale) as [x st1]. specialize (IH st1).
  destruct (Make.normal_n normal_draw st1 loc scale n) as [xs st2].
  simpl in *. by rewrite IH.
Qed.

(** X1.  [make_noise_image] returns an image exactly when the mean is given
    and either the distribution is [gaussian] with a standard deviation
    that is given and not negative, or it is [poisson] with a mean that
    is not negative and not above the largest rate of the sampler; the
    image then has one item per pixel.  A missing mean is reported
    first, whatever the other arguments are, and the standard deviation
    plays no role for Poisson noise. *)
Theorem make_noise_image_outcome (shape : nat * nat) (distribution : string)
    (mean stddev : option R) seed entropy :
  (is_ok (make_noise_image shape distribution mean stddev seed entropy) = true
   <-> exists mu, mean = Some mu /\
         (distribution = "gaussian"
          /\ (exists sd, stddev = Some sd /\ 0 <= sd)
          \/ distribution = "poisson" /\ 0 <= mu <= poisson_lam_max))
  /\ (forall image,
        make_noise_image shape distribution mean stddev seed entropy = Ok image ->
        length image = (shape.1 * shape.2)%nat)
  /\ (mean = None ->
        make_noise_image shape distribution mean stddev seed entropy
        = Raise (ValueError "mean must be input"))
  /\ (distribution = "poisson" ->
        make_noise_image shape distribution mean stddev seed entropy
        = make_noise_image shape distribution mean None seed entropy).
Proof.
  unfold Make.make_noise_image, Make.rng_normal, Make.rng_poisson_image.
  split; [|split; [|split]].
  - destruct mean as [mu|]; [|split; [discriminate|by intros (? & [=] & _)]].
    destruct (decide (distribution = "gaussian")) as [->|Hg].
    + destruct stddev as [sd|].
      * destruct (decide (sd < 0)) as [Hsd|Hsd].
        -- rewrite bool_decide_eq_true_2 by done. split; [discriminate|].
           intros (? & _ & [(_ & sd' & [= <-] & ?)|[[=] _]]). lra.
        -- rewrite bool_decide_eq_false_2 by done. split; [|done].
           intros _. exists mu. split; [done|]. left. split; [done|].
           exists sd. split; [done|lra].
      * split; [discriminate|].
        intros (? & _ & [(_ & sd' & [=] & ?)|[[=] _]]).
    + destruct (decide (distribution = "poisson")) as [->|Hp].
      * destruct (decide (mu < 0)) as [Hmu|Hmu].
        -- rewrite bool_decide_eq_true_2 by done. split; [discriminate|].
           intros (? & [= <-] & [[[=] _]|[_ ?]]). lra.
        -- rewrite bool_decide_eq_false_2 by done.
           destruct (decide (poisson_lam_max < mu)) as [Hmax|Hmax].
           ++ rewrite bool_decide_eq_true_2 by done. split; [discriminate|].
              intros (? & [= <-] & [[[=] _]|[_ ?]]). lra.
           ++ rewrite bool_decide_eq_false_2 by done. split; [|done].
              intros _. exists mu. split; [done|]. right. split; [done|lra].
      * split; [discriminate|]. intros (? & _ & [[? _]|[? _]]); done.
  - intros image. destruct mean as [mu|]; [|discriminate].
    destruct (decide (distribution = "gaussian")).
    + destruct stddev as [sd|]; [|discriminate].
      destruct (bool_decide (sd < 0)); [discriminate|].
      intros [= <-]. apply normal_n_length.
    + destruct (decide (distribution = "poisson")); [|discriminate].
      destruct (bool_decide (mu < 0)); [discriminate|].
      destruct (bool_decide (poisson_lam_max < mu)); [discriminate|].
      intros [= <-]. rewrite length_map, PoissonNoise.poisson_n_length.
      apply length_replicate.
  - by intros ->.
  - intros ->. destruct mean; [|done]. by rewrite decide_False.
Qed.

End make_noise_image.
End NoiseImage.

(** ** Random tables, column by column *)

Module RandomColumns.
Import Tables.
Section columns.
Open Scope R_scope.
Context {rng : Type}.
Variable seed_rng : N -> rng.
Variable uniform_draw : rng -> R -> R -> R * rng.

Local Abbreviation make_random_models_table :=
  (Make.make_random_models_table seed_rng uniform_draw).
Local Abbreviation fill_columns := (Make.fill_columns uniform_draw).

Lemma uniform_n_draws st lo hi n :
  length (Make.uniform_n uniform_draw st lo hi n).1 = n.
Proof.
  revert st. induction n as [|n IH]; intros st; simpl; [done|].
  destruct (uniform_draw st lo hi) as [x st1]. specialize (IH st1).
  destruct (Make.uniform_n uniform_draw st1 lo hi n) as [xs st2].
  simpl in *. by rewrite IH.
Qed.

Lemma uniform_n_Forall (P : R -> Prop) st lo hi n :
  (forall st', P (uniform_draw st' lo hi).1) ->
  Forall P (Make.uniform_n uniform_draw st lo hi n).1.
Proof.
  intros HP. revert st. induction n as [|n IH]; intros st; simpl; [constructor|].
  pose proof (HP st) as Hx.
  destruct (uniform_draw st lo hi) as [x st1]. specialize (IH st1).
  destruct (Make.uniform_n uniform_draw st1 lo hi n) as [xs st2].
  simpl in *. by constructor.
Qed.

Lemma filter_ext_elem {A} (P Q : A -> Prop) `{!forall x, Decision (P x)}
    `{!forall x, Decision (Q x)} (l : list A) :
  (forall x, x ∈ l -> P x <-> Q x) -> filter P l = filter Q l.
Proof.
  induction l as [|x l IH]; intros Hl; [done|].
  rewrite !filter_cons.
  assert (HPQ : P x <-> Q x) by (apply Hl; left).
  rewrite IH by (intros y Hy; apply Hl; by right).
  destruct (decide (P x)), (decide (Q x)); tauto || done.
Qed.

Lemma filter_ext_elem_True {A} (P : A -> Prop) `{!forall x, Decision (P x)}
    (l : list A) :
  (forall x, x ∈ l -> P x) -> filter P l = l.
Proof.
  induction l as [|x l IH]; intros Hl; [done|].
  rewrite filter_cons, decide_True by (apply Hl; left).
  f_equal. apply IH. intros y Hy. apply Hl. by right.
Qed.

(** What the loop over the items leaves in the table: the columns that
    were there and are not drawn again, and for each item a column of
    draws from its range. *)
Lemma fill_columns_columns st items (n : Z) (sources t : Make.table) st' :
  fill_columns st items n sources = Ok (t, st') ->
  NoDup items.*1 ->
  Make.colnames t
  = Make.colnames sources ++ filter (fun k => k ∉ Make.colnames sources) items.*1
  /\ (forall name, name ∉ items.*1 ->
        Make.column t name = Make.column sources name)
  /\ (forall name lo hi, (name, (lo, hi)) ∈ items ->
        exists st0, Make.column t name
                    = Some (Make.uniform_n uniform_draw st0 lo hi (Z.to_nat n)).1).
Proof.
  revert st sources.
  induction items as [|[key [lo hi]] items IH]; intros st sources Hrun Hnd.
  - simpl in Hrun. injection Hrun as <- <-. split; [|split].
    + simpl. by rewrite app_nil_r.
    + done.
    + intros name lo hi Hin. by apply elem_of_nil in Hin.
  - simpl in Hrun. unfold Make.rng_uniform in Hrun.
    destruct (bool_decide (hi < lo)); [discriminate|].
    destruct (n <? 0)%Z; [discriminate|].
    destruct (Make.uniform_n uniform_draw st lo hi (Z.to_nat n)) as [col st1] eqn:Hcol.
    rewrite fmap_cons in Hnd. apply NoDup_cons in Hnd as [Hkey Hnd].
    destruct (IH _ _ Hrun Hnd) as (Hnames & Hold & Hnew).
    split; [|split].
    + rewrite Hnames. rewrite fmap_cons. cbn [fst]. rewrite filter_cons.
      destruct (decide (key ∈ Make.colnames sources)) as [Hin|Hnin].
      * rewrite colnames_set_column_old by done.
        rewrite decide_False by (intros H; by apply H). done.
      * rewrite colnames_set_column_new by done.
        rewrite decide_True by done. rewrite <- app_assoc. simpl. do 2 f_equal.
        apply filter_ext_elem. intros k Hk.
        rewrite not_elem_of_app, not_elem_of_cons.
        split; [tauto|]. intros Hks. split; [done|]. split; [|apply not_elem_of_nil].
        intros ->. done.
    + intros name Hname. rewrite fmap_cons in Hname.
      apply not_elem_of_cons in Hname as [Hne Hname].
      rewrite Hold by done. by apply column_set_column_ne.
    + intros name lo' hi' Hin. apply elem_of_cons in Hin as [[= -> -> ->]|Hin].
      * exists st. rewrite Hold by done. rewrite column_set_column.
        by rewrite Hcol.
      * by apply Hnew.
Qed.

Lemma make_random_models_table_run (n : Z)
    (param_ranges : list (string * (R * R))) seed entropy :
  (0 <= n)%Z -> NoDup param_ranges.*1 ->
  Forall (fun kv => kv.2.1 <= kv.2.2) param_ranges ->
  exists t,
    make_random_models_table n param_ranges seed entropy = Ok t
    /\ Forall (fun c => length c.2 = Z.to_nat n) t
    /\ Make.colnames t = param_ranges.*1
    /\ forall name lo hi, (name, (lo, hi)) ∈ param_ranges ->
         exists col st0,
           Make.column t name = Some col
           /\ col = (Make.uniform_n uniform_draw st0 lo hi (Z.to_nat n)).1
           /\ length col = Z.to_nat n.
Proof.
  intros Hn Hnd Hord. unfold Make.make_random_models_table.
  destruct (RandomTable.fill_columns_ok uniform_draw
              (Make.default_rng seed_rng seed entropy) param_ranges n [] Hn Hord)
    as (t & st' & Hrun & Hlens & _); [constructor|].
  rewrite Hrun. exists t. split; [done|]. split; [done|].
  destruct (fill_columns_columns _ _ _ _ _ _ Hrun Hnd) as (Hnames & _ & Hnew).
  split.
  - rewrite Hnames. simpl. apply filter_ext_elem_True. intros k _.
    apply not_elem_of_nil.
  - intros name lo hi Hin. destruct (Hnew name lo hi Hin) as [st0 Hcol].
    eexists _, st0. split; [exact Hcol|]. split; [done|].
    apply uniform_n_draws.
Qed.

(** X2.  For a count that is not negative and ranges whose lower
    bound is at or below the upper bound, the table has one column per
    key of the range map, in the order of the map, and each column has
    [n] items. *)
Theorem make_random_models_table_columns (n : Z)
    (param_ranges : list (string * (R * R))) seed entropy :
  (0 <= n)%Z -> NoDup param_ranges.*1 ->
  Forall (fun kv => kv.2.1 <= kv.2.2) param_ranges ->
  exists t,
    make_random_models_table n param_ranges seed entropy = Ok t
    /\ Make.colnames t = param_ranges.*1
    /\ forall name, name ∈ param_ranges.*1 ->
         exists col, Make.column t name = Some col
                     /\ length col = Z.to_nat n.
Proof.
  intros Hn Hnd Hord.
  destruct (make_random_models_table_run n param_ranges seed entropy Hn Hnd Hord)
    as (t & Hrun & _ & Hnames & Hcols).
  exists t. split; [done|]. split; [done|].
  intros name Hname. apply list_elem_of_fmap in Hname as ([k [lo hi]] & -> & Hin).
  destruct (Hcols k lo hi Hin) as (col & st0 & Hcol & _ & Hlen). eauto.
Qed.

(** A generator whose draws lie in [[lo, hi)]. *)
Hypothesis uniform_in_range :
  forall st lo hi, lo < hi ->
    lo <= (uniform_draw st lo hi).1 < hi.


End columns.

Lemma lcg_uniform_in_range (st : N) (lo hi : R) :
  (lo < hi -> lo <= (Instances.lcg_uniform st lo hi).1 < hi)%R.
Proof.
  intros Hlt. unfold Instances.lcg_uniform, Instances.lcg_fraction. simpl.
  assert (Hmod : (0 <= Z.of_N (st mod 1024) < 1024)%Z).
  { split; [apply N2Z.is_nonneg|].
    change 1024%Z with (Z.of_N 1024). apply N2Z.inj_lt. by apply N.mod_lt. }
  destruct Hmod as [H0 H1]. apply IZR_le in H0. apply IZR_lt in H1.
  set (k := IZR (Z.of_N (st mod 1024))) in *.
  assert (0 <= k / 1024 < 1)%R as [Hf0 Hf1].
  { unfold Rdiv. split; lra. }
  nra.
Qed.

Lemma make_random_models_table_columns_witness :
  exists t,
    Make.make_random_models_table Instances.lcg_seed Instances.lcg_uniform 3
      [("flux", (500, 1000)); ("x_mean", (0, 500))]%R (Some 0%N) 0%N = Ok t
    /\ Make.colnames t = ["flux"; "x_mean"]
    /\ forall name, name ∈ ["flux"; "x_mean"] ->
         exists col, Make.column t name = Some col /\ length col = 3%nat.
Proof.
  apply (make_random_models_table_columns Instances.lcg_seed
           Instances.lcg_uniform 3
           [("flux", (500, 1000)); ("x_mean", (0, 500))]%R (Some 0%N) 0%N).
  - lia.
  - simpl. apply NoDup_cons. split; [|apply NoDup_singleton].
    intros H. apply list_elem_of_singleton in H. discriminate.
  - repeat constructor; simpl; lra.
Defined.


End RandomColumns.

(** ** Amplitude and flux columns *)

Module SourceTables.
Import Tables.
Section derived_columns.
Open Scope R_scope.
Variable rnd : R -> R.
Variable np_pi : R.

Local Abbreviation flux_to_amplitude := (Make.flux_to_amplitude rnd np_pi).
Local Abbreviation amplitude_to_flux := (Make.amplitude_to_flux rnd np_pi).

Lemma has_column_true (t : Make.table) name :
  Make.has_column t name = true <-> name ∈ Make.colnames t.
Proof. unfold Make.has_column. apply bool_decide_eq_true. Qed.

Lemma has_column_false (t : Make.table) name :
  Make.has_column t name = false <-> name ∉ Make.colnames t.
Proof. unfold Make.has_column. apply bool_decide_eq_false. Qed.

Lemma amplitude_column_lookup (flux xstd ystd : list R) i f sx sy :
  flux !! i = Some f -> xstd !! i = Some sx -> ystd !! i = Some sy ->
  zip_with (fun f s => flux_to_amplitude f s.1 s.2) flux (zip xstd ystd) !! i
  = Some (flux_to_amplitude f sx sy).
Proof.
  intros Hf Hx Hy. apply lookup_zip_with_Some.
  exists f, (sx, sy). split; [done|]. split; [done|].
  apply lookup_zip_with_Some. eauto.
Qed.

Lemma column_or_default_column (t : Make.table) name dflt col :
  Make.column t name = Some col -> Make.column_or_default t name dflt = col.
Proof. unfold Make.column_or_default. by intros ->. Qed.

Lemma column_or_default_missing (t : Make.table) name dflt i :
  name ∉ Make.colnames t -> (i < Make.table_len t)%nat ->
  Make.column_or_default t name dflt !! i = Some dflt.
Proof.
  intros Hn Hi. unfold Make.column_or_default.
  apply column_None in Hn. rewrite Hn. by apply lookup_replicate_2.
Qed.

(** X6.  The table that the Gaussian wrapper renders.  With a [flux] column
    and no [amplitude] column it is the table given with one more
    column, [amplitude], at the end: the other columns are as they were,
    [flux] among them, and each amplitude is the flux of its row divided
    by [2 pi] times the two standard deviations of the row.  In every
    other case, in particular when both columns are there, the table is
    rendered as given. *)
Theorem gaussian_sources_table_columns (xstd_default ystd_default : R)
    (t : Make.table) :
  let t' := Make.gaussian_sources_table rnd np_pi xstd_default ystd_default t in
  ("flux" ∈ Make.colnames t -> "amplitude" ∉ Make.colnames t ->
     Make.colnames t' = Make.colnames t ++ ["amplitude"]
     /\ (forall name, name <> "amplitude" ->
           Make.column t' name = Make.column t name)
     /\ exists flux amplitude,
          Make.column t "flux" = Some flux
          /\ Make.column t' "amplitude" = Some amplitude
          /\ forall i f sx sy,
               flux !! i = Some f ->
               Make.column_or_default t "x_stddev" xstd_default !! i = Some sx ->
               Make.column_or_default t "y_stddev" ystd_default !! i = Some sy ->
               amplitude !! i = Some (flux_to_amplitude f sx sy))
  /\ ("amplitude" ∈ Make.colnames t \/ "flux" ∉ Make.colnames t -> t' = t).
Proof.
  intros t'. subst t'. unfold Make.gaussian_sources_table. split.
  - intros Hflux Hamp.
    rewrite (proj2 (has_column_true t "flux") Hflux).
    rewrite (proj2 (has_column_false t "amplitude") Hamp). simpl.
    destruct (column_is_Some t "flux" Hflux) as [flux Hcol]. rewrite Hcol. simpl.
    split; [by apply colnames_set_column_new|].
    split; [intros name Hne; by apply column_set_column_ne|].
    exists flux. eexists. split; [done|]. split; [apply column_set_column|].
    intros i f sx sy. apply amplitude_column_lookup.
  - intros [Hamp|Hflux].
    + rewrite (proj2 (has_column_true t "amplitude") Hamp).
      by rewrite andb_false_r.
    + by rewrite (proj2 (has_column_false t "flux") Hflux).
Qed.

(** X7.  The table that the PRF wrapper renders.  With an [amplitude] column
    and no [flux] column it is the table given with one more column,
    [flux], at the end, each flux being the amplitude of its row times
    [2 pi sigma^2].  In every other case, in particular when both columns
    are there, the table is rendered as given. *)
Theorem gaussian_prf_sources_table_columns (sigma_default : R)
    (t : Make.table) :
  let t' := Make.gaussian_prf_sources_table rnd np_pi sigma_default t in
  ("amplitude" ∈ Make.colnames t -> "flux" ∉ Make.colnames t ->
     Make.colnames t' = Make.colnames t ++ ["flux"]
     /\ (forall name, name <> "flux" ->
           Make.column t' name = Make.column t name)
     /\ exists amplitude flux,
          Make.column t "amplitude" = Some amplitude
          /\ Make.column t' "flux" = Some flux
          /\ forall i a s,
               amplitude !! i = Some a ->
               Make.column_or_default t "sigma" sigma_default !! i = Some s ->
               flux !! i = Some (amplitude_to_flux a s))
  /\ ("flux" ∈ Make.colnames t \/ "amplitude" ∉ Make.colnames t -> t' = t).
Proof.
  intros t'. subst t'. unfold Make.gaussian_prf_sources_table. split.
  - intros Hamp Hflux.
    rewrite (proj2 (has_column_true t "amplitude") Hamp).
    rewrite (proj2 (has_column_false t "flux") Hflux). simpl.
    destruct (column_is_Some t "amplitude" Hamp) as [amp Hcol].
    rewrite Hcol. simpl.
    split; [by apply colnames_set_column_new|].
    split; [intros name Hne; by apply column_set_column_ne|].
    exists amp. eexists. split; [done|]. split; [apply column_set_column|].
    intros i a s Ha Hs. apply lookup_zip_with_Some. eauto.
  - intros [Hflux|Hamp].
    + by rewrite (proj2 (has_column_true t "flux") Hflux).
    + rewrite (proj2 (has_column_false t "amplitude") Hamp).
      by rewrite andb_false_r.
Qed.

End derived_columns.
End SourceTables.

(** ** Random Gaussian tables *)

Module GaussiansTable.
Import Tables.
Section make_random_gaussians_table.
Open Scope R_scope.
Context {rng : Type}.
Variable seed_rng : N -> rng.
Variable uniform_draw : rng -> R -> R -> R * rng.
Variable rnd : R -> R.
Variable np_pi : R.

Local Abbreviation make_random_models_table :=
  (Make.make_random_models_table seed_rng uniform_draw).
Local Abbreviation make_random_gaussians_table :=
  (Make.make_random_gaussians_table seed_rng uniform_draw rnd np_pi).
Local Abbreviation flux_to_amplitude := (Make.flux_to_amplitude rnd np_pi).

Lemma has_key_true (param_ranges : list (string * (R * R))) name :
  Make.has_key param_ranges name = true <-> name ∈ param_ranges.*1.
Proof. unfold Make.has_key. apply bool_decide_eq_true. Qed.

Lemma has_key_false (param_ranges : list (string * (R * R))) name :
  Make.has_key param_ranges name = false <-> name ∉ param_ranges.*1.
Proof. unfold Make.has_key. apply bool_decide_eq_false. Qed.

(** The columns that the loop of [make_random_models_table] leaves are
    columns of keys of the range map or columns that were there. *)
Lemma fill_columns_colnames st items (n : Z) (sources t : Make.table) st' :
  Make.fill_columns uniform_draw st items n sources = Ok (t, st') ->
  forall name, name ∈ Make.colnames t <->
               name ∈ Make.colnames sources \/ name ∈ items.*1.
Proof.
  revert st sources.
  induction items as [|[key [lo hi]] items IH]; intros st sources Hrun name.
  - simpl in Hrun. injection Hrun as <- <-. simpl.
    split; [by left|]. intros [?|H]; [done|]. by apply elem_of_nil in H.
  - simpl in Hrun. unfold Make.rng_uniform in Hrun.
    destruct (bool_decide (hi < lo)); [discriminate|].
    destruct (n <? 0)%Z; [discriminate|].
    destruct (Make.uniform_n uniform_draw st lo hi (Z.to_nat n)) as [col st1].
    rewrite (IH _ _ Hrun name). rewrite fmap_cons, elem_of_cons. cbn [fst].
    destruct (decide (key ∈ Make.colnames sources)) as [Hin|Hnin].
    + rewrite colnames_set_column_old by done.
      split; [tauto|]. intros [?|[->|?]]; tauto.
    + rewrite colnames_set_column_new by done.
      rewrite elem_of_app, list_elem_of_singleton. tauto.
Qed.

Lemma make_random_models_table_colnames (n : Z)
    (param_ranges : list (string * (R * R))) seed entropy t :
  make_random_models_table n param_ranges seed entropy = Ok t ->
  forall name, name ∈ Make.colnames t <-> name ∈ param_ranges.*1.
Proof.
  unfold Make.make_random_models_table. intros Hrun name.
  destruct (Make.fill_columns uniform_draw _ param_ranges n [])
    as [[t' st']|e] eqn:Hfill; [|discriminate].
  injection Hrun as ->. rewrite (fill_columns_colnames _ _ _ _ _ _ Hfill name).
  simpl. split; [|by right]. intros [H|?]; [|done]. by apply elem_of_nil in H.
Qed.

(** X4.  For a count that is not negative and ranges whose lower
    bound is at or below the upper bound, a range map with a key [flux]
    and no key [amplitude] gives the table
    of [make_random_models_table] with one more column, [amplitude], at
    the end.  The drawn columns are as drawn, [flux] among them, and the
    amplitude of a row is its flux divided by [2 pi] times the two
    standard deviations of the row, each of them 1 when the range map has
    no key for it. *)
Theorem make_random_gaussians_table_amplitude (n : Z)
    (param_ranges : list (string * (R * R))) seed entropy :
  (0 <= n)%Z -> NoDup param_ranges.*1 ->
  Forall (fun kv => kv.2.1 <= kv.2.2) param_ranges ->
  "flux" ∈ param_ranges.*1 -> "amplitude" ∉ param_ranges.*1 ->
  exists base t flux amplitude,
    make_random_models_table n param_ranges seed entropy = Ok base
    /\ make_random_gaussians_table n param_ranges seed entropy = Ok t
    /\ Make.colnames t = param_ranges.*1 ++ ["amplitude"]
    /\ (forall name, name <> "amplitude" ->
          Make.column t name = Make.column base name)
    /\ Make.column base "flux" = Some flux
    /\ Make.column t "amplitude" = Some amplitude
    /\ length amplitude = Z.to_nat n
    /\ forall i f, flux !! i = Some f ->
         exists sx sy,
           Make.column_or_default base "x_stddev" 1 !! i = Some sx
           /\ Make.column_or_default base "y_stddev" 1 !! i = Some sy
           /\ ("x_stddev" ∉ param_ranges.*1 -> sx = 1)
           /\ ("y_stddev" ∉ param_ranges.*1 -> sy = 1)
           /\ amplitude !! i = Some (flux_to_amplitude f sx sy).
Proof.
  intros Hn Hnd Hord Hflux Hamp.
  destruct (RandomColumns.make_random_models_table_run seed_rng uniform_draw
              n param_ranges seed entropy Hn Hnd Hord)
    as (base & Hrun & Hlens & Hnames & Hcols).
  unfold Make.make_random_gaussians_table. rewrite Hrun.
  rewrite (proj2 (has_key_true _ _) Hflux), (proj2 (has_key_false _ _) Hamp).
  simpl.
  assert (Hbase : base <> []).
  { intros ->. simpl in Hnames. rewrite <- Hnames in Hflux.
    by apply elem_of_nil in Hflux. }
  assert (Hlen : Make.table_len base = Z.to_nat n).
  { destruct base as [|[k c] base]; [done|]. simpl.
    by apply Forall_cons in Hlens as [Hc _]. }
  assert (Hcollen : forall name col, Make.column base name = Some col ->
                                     length col = Z.to_nat n).
  { intros name col Hcol.
    assert (Hin : name ∈ param_ranges.*1).
    { rewrite <- Hnames. apply column_is_Some_inv. by rewrite Hcol. }
    apply list_elem_of_fmap in Hin as ([k [lo hi]] & -> & Hin).
    destruct (Hcols k lo hi Hin) as (col' & st0 & Hcol' & _ & Hl).
    simpl in Hcol. congruence. }
  assert (Hdefault : forall name i, (i < Z.to_nat n)%nat ->
            exists s, Make.column_or_default base name 1 !! i = Some s
                      /\ (name ∉ param_ranges.*1 -> s = 1)).
  { intros name i Hi. unfold Make.column_or_default.
    destruct (Make.column base name) as [col|] eqn:Hcol.
    - destruct (lookup_lt_is_Some_2 col i) as [s Hs];
        [by rewrite (Hcollen _ _ Hcol)|].
      exists s. split; [done|]. intros Hnin. exfalso. apply Hnin.
      rewrite <- Hnames. apply column_is_Some_inv. by rewrite Hcol.
    - exists 1. split; [|done]. apply lookup_replicate_2. by rewrite Hlen. }
  rewrite <- Hnames in Hflux.
  destruct (column_is_Some base "flux" Hflux) as [flux Hfcol]. rewrite Hfcol.
  exists base. eexists. exists flux. eexists.
  split; [done|]. split; [done|].
  split.
  { rewrite <- Hnames. apply colnames_set_column_new. by rewrite Hnames. }
  split; [intros name Hne; by apply column_set_column_ne|].
  split; [done|]. split; [apply column_set_column|].
  split.
  { rewrite length_zip_with, length_zip.
    rewrite (Hcollen _ _ Hfcol).
    assert (Hl : forall name, length (Make.column_or_default base name 1)
                              = Z.to_nat n).
    { intros name. unfold Make.column_or_default.
      destruct (Make.column base name) as [col|] eqn:Hcol.
      - by apply (Hcollen name).
      - by rewrite length_replicate. }
    rewrite !Hl. lia. }
  intros i f Hf.
  assert (Hi : (i < Z.to_nat n)%nat).
  { rewrite <- (Hcollen _ _ Hfcol). by apply lookup_lt_Some in Hf. }
  destruct (Hdefault "x_stddev" i Hi) as (sx & Hsx & Hsx1).
  destruct (Hdefault "y_stddev" i Hi) as (sy & Hsy & Hsy1).
  exists sx, sy. split; [done|]. split; [done|]. split; [done|]. split; [done|].
  by apply SourceTables.amplitude_column_lookup.
Qed.

(** X5.  The function raises exactly when [make_random_models_table] does,
    and with a key [amplitude] or without a key [flux] it returns the
    table of that function as it is. *)
Theorem make_random_gaussians_table_otherwise (n : Z)
    (param_ranges : list (string * (R * R))) seed entropy :
  (is_ok (make_random_gaussians_table n param_ranges seed entropy)
   <-> is_ok (make_random_models_table n param_ranges seed entropy))
  /\ (forall e, make_random_models_table n param_ranges seed entropy = Raise e ->
        make_random_gaussians_table n param_ranges seed entropy = Raise e)
  /\ ("amplitude" ∈ param_ranges.*1 \/ "flux" ∉ param_ranges.*1 ->
      make_random_gaussians_table n param_ranges seed entropy
      = make_random_models_table n param_ranges seed entropy).
Proof.
  unfold Make.make_random_gaussians_table.
  destruct (make_random_models_table n param_ranges seed entropy)
    as [base|e] eqn:Hrun.
  - split; [|split].
    + split; [done|]. intros _.
      destruct (Make.has_key param_ranges "flux") eqn:Hflux; [|done].
      destruct (Make.has_key param_ranges "amplitude"); [done|]. simpl.
      apply has_key_true in Hflux.
      apply (make_random_models_table_colnames _ _ _ _ _ Hrun) in Hflux.
      by destruct (column_is_Some base "flux" Hflux) as [flux ->].
    + intros e [=].
    + intros [Hamp|Hflux].
      * rewrite (proj2 (has_key_true _ _) Hamp). by rewrite andb_false_r.
      * by rewrite (proj2 (has_key_false _ _) Hflux).
  - split; [done|]. split; [by intros e' [= ->]|done].
Qed.

End make_random_gaussians_table.

Lemma make_random_gaussians_table_amplitude_witness :
  exists base t flux amplitude,
    Make.make_random_models_table Instances.lcg_seed Instances.lcg_uniform 3
      [("flux", (500, 1000)); ("x_stddev", (1, 5))]%R (Some 0%N) 0%N = Ok base
    /\ Make.make_random_gaussians_table Instances.lcg_seed
         Instances.lcg_uniform (fun x => x) PI 3
         [("flux", (500, 1000)); ("x_stddev", (1, 5))]%R (Some 0%N) 0%N = Ok t
    /\ Make.colnames t = ["flux"; "x_stddev"] ++ ["amplitude"]
    /\ (forall name, name <> "amplitude" ->
          Make.column t name = Make.column base name)
    /\ Make.column base "flux" = Some flux
    /\ Make.column t "amplitude" = Some amplitude
    /\ length amplitude = 3%nat
    /\ forall i f, flux !! i = Some f ->
         exists sx sy,
           Make.column_or_default base "x_stddev" 1 !! i = Some sx
           /\ Make.column_or_default base "y_stddev" 1 !! i = Some sy
           /\ ("x_stddev" ∉ ["flux"; "x_stddev"] -> sx = 1%R)
           /\ ("y_stddev" ∉ ["flux"; "x_stddev"] -> sy = 1%R)
           /\ amplitude !! i
              = Some (Make.flux_to_amplitude (fun x => x) PI f sx sy).
Proof.
  apply (make_random_gaussians_table_amplitude Instances.lcg_seed
           Instances.lcg_uniform (fun x => x) PI 3
           [("flux", (500, 1000)); ("x_stddev", (1, 5))]%R (Some 0%N) 0%N).
  - lia.
  - simpl. apply NoDup_cons. split; [|apply NoDup_singleton].
    intros H. apply list_elem_of_singleton in H. discriminate.
  - repeat constructor; simpl; lra.
  - left.
  - simpl. intros H. apply elem_of_cons in H as [H|H]; [discriminate|].
    apply list_elem_of_singleton in H. discriminate.
Defined.

End GaussiansTable.

(** ** Rendering, row by row *)

Module RenderRows.
Section rows.
Open Scope R_scope.
Variable C : Make.model_class.

Local Abbreviation model := (Make.model C).
Local Abbreviation params := (@Make.params C).

Local Abbreviation eval := (Make.model_image C).

Lemma row_assignable_cons t i p ps :
  Make.row_assignable C t i (p :: ps) ->
  (exists x, Make.row_get t i p = Ok x /\ Make.validate C p x = true)
  /\ Make.row_assignable C t i ps.
Proof.
  intros H. split; [apply H; left|]. intros q Hq. apply H. by right.
Qed.

Lemma row_params_lookup (M : gmap string R) t i ps q :
  Forall (fun p => is_ok (Make.row_get t i p) = true) ps ->
  Make.row_params M t i ps !! q
  = if decide (q ∈ ps)
    then match Make.row_get t i q with Ok x => Some x | Raise _ => None end
    else M !! q.
Proof.
  intros Hps. revert M. unfold Make.row_params.
  induction Hps as [|p ps Hp _ IH]; intros M.
  - rewrite decide_False; [done|]. apply not_elem_of_nil.
  - cbn [foldl]. rewrite IH.
    destruct (decide (q ∈ ps)) as [Hin|Hnin].
    + rewrite decide_True; [done|]. by right.
    + destruct (decide (q = p)) as [->|Hne].
      * rewrite decide_True by left.
        destruct (Make.row_get t i p) as [x|e]; [|done].
        by rewrite lookup_insert_eq.
      * rewrite decide_False by (rewrite elem_of_cons; tauto).
        destruct (Make.row_get t i p) as [x|e]; [|done].
        by rewrite lookup_insert_ne.
Qed.

Lemma row_assignable_gets t i ps :
  Make.row_assignable C t i ps ->
  Forall (fun p => is_ok (Make.row_get t i p) = true) ps.
Proof.
  intros H. apply Forall_forall. intros p Hp.
  by destruct (H p Hp) as (x & -> & _).
Qed.

(** The parameters of a row do not depend on the parameters to set that
    the model had before. *)
Lemma row_params_base (M1 M2 : gmap string R) t i ps :
  Forall (fun p => is_ok (Make.row_get t i p) = true) ps ->
  (forall q, q ∉ ps -> M1 !! q = M2 !! q) ->
  Make.row_params M1 t i ps = Make.row_params M2 t i ps.
Proof.
  intros Hps Hout. apply map_eq. intros q.
  rewrite !row_params_lookup by done.
  destruct (decide (q ∈ ps)); [done|]. by apply Hout.
Qed.

Lemma set_params_ok t i ps (m : model) :
  Make.row_assignable C t i ps ->
  exists m', Make.set_params C t i ps m = (Ok tt, m')
             /\ params m' = Make.row_params (params m) t i ps.
Proof.
  revert m. induction ps as [|p ps IH]; intros m Hrow.
  - by exists m.
  - apply row_assignable_cons in Hrow as [(x & Hget & Hv) Hrow].
    destruct (Render.setattr_valid C p x m Hv) as (m1 & Hset & Hm1).
    destruct (IH m1 Hrow) as (m' & Hrun & Hm').
    exists m'. cbn [Make.set_params]. unfold mbind, SE_bind, bind, Make.lift.
    rewrite Hget, Hset, Hrun. split; [done|].
    rewrite Hm', Hm1. unfold Make.row_params. simpl. by rewrite Hget.
Qed.

(** A row with a value that the model refuses stops the assignments of
    that row. *)
Lemma set_params_refused t i ps (m : model) :
  Forall (fun p => is_ok (Make.row_get t i p) = true) ps ->
  ~ Make.row_assignable C t i ps ->
  exists m', Make.set_params C t i ps m = (Raise (ModelError "parameter"), m').
Proof.
  intros Hps. revert m. induction Hps as [|p ps Hp _ IH]; intros m Hnot.
  - exfalso. apply Hnot. intros p Hp. by apply elem_of_nil in Hp.
  - simpl. unfold mbind, SE_bind, bind, Make.lift.
    destruct (Make.row_get t i p) as [x|e] eqn:Hget; [|done].
    unfold Make.setattr at 1. cbn [Make.to_float].
    destruct (decide (Make.validate C p x = true)) as [Hv|Hv]; [|eauto].
    apply IH. intros Hrest. apply Hnot. intros q Hq.
    apply elem_of_cons in Hq as [->|Hq]; [eauto|by apply Hrest].
Qed.

(** The rows [rows] are rendered one after the other, each with the
    parameters of its row, and the loop goes on with the sum of the
    images. *)
Lemma render_rows_app shape t oversample ps (m : model) rows vs rest :
  Forall2 (fun i v =>
             Make.row_assignable C t i ps
             /\ eval shape oversample (Make.row_params (params m) t i ps) = Ok v)
          rows vs ->
  forall image (m1 : model),
    (forall q, q ∉ ps -> params m1 !! q = params m !! q) ->
    exists m2,
      (forall q, q ∉ ps -> params m2 !! q = params m !! q)
      /\ Make.render_rows C shape t oversample ps (rows ++ rest) image m1
         = Make.render_rows C shape t oversample ps rest
             (Make.add_images image vs) m2.
Proof.
  induction 1 as [|i v rows vs [Hrow Hev] _ IH]; intros image m1 Hm1.
  - by exists m1.
  - destruct (set_params_ok t i ps m1 Hrow) as (m' & Hset & Hm').
    assert (Hsame : params m' = Make.row_params (params m) t i ps).
    { rewrite Hm'. apply row_params_base; [by apply row_assignable_gets|done]. }
    destruct (IH (zip_with Rplus image v) m') as (m2 & Hm2 & Hrun).
    { intros q Hq. rewrite <- (Hm1 q Hq).
      by apply (Render.set_params_frame C t i ps m1 (Ok tt) m' Hset). }
    exists m2. split; [done|].
    cbn [app Make.render_rows]. unfold mbind, SE_bind, bind at 1 2.
    rewrite Hset.
    replace ((if bool_decide (oversample = 1) then Make.call_model C shape
              else Make.call_discretize C shape oversample) m')
      with (Ok v, m').
    + exact Hrun.
    + rewrite <- Hev, <- Hsame.
      unfold Make.model_image, Make.call_model, Make.call_discretize.
      by destruct (bool_decide (oversample = 1)).
Qed.

Lemma seq_rows (n : nat) (vs : list (list R)) (P : nat -> list R -> Prop) :
  length vs = n ->
  (forall i v, vs !! i = Some v -> P i v) ->
  Forall2 P (seq 0 n) vs.
Proof.
  intros Hlen HP. apply Forall2_same_length_lookup_2.
  - by rewrite length_seq.
  - intros i k v Hk Hv. apply lookup_seq in Hk as [-> _]. by apply HP.
Qed.

(** The call as the body of the [try] and the [finally] block leave
    it. *)
Lemma make_model_sources_image_body shape t oversample (m : model) :
  exists m1 m2,
    Make.make_model_sources_image C shape t oversample m
    = ((Make.render_rows C shape t oversample
          (filter (fun p => Make.is_param C m p = true) (Make.colnames t))
          (seq 0 (Make.table_len t))
          (replicate (shape.1 * shape.2) 0) m).1, m2)
    /\ Make.render_rows C shape t oversample
          (filter (fun p => Make.is_param C m p = true) (Make.colnames t))
          (seq 0 (Make.table_len t))
          (replicate (shape.1 * shape.2) 0) m
       = ((Make.render_rows C shape t oversample
          (filter (fun p => Make.is_param C m p = true) (Make.colnames t))
          (seq 0 (Make.table_len t))
          (replicate (shape.1 * shape.2) 0) m).1, m1).
Proof.
  destruct (Render.make_model_sources_image_final C shape t oversample m)
    as (r & m1 & m2 & Hbody & Hcall & _).
  exists m1, m2. rewrite Hcall, Hbody. done.
Qed.

(** X8.  The image of a table whose rows the model accepts is the sum of one
    image per row, added in the order of the rows to an image of zeros.
    The image of a row is the model evaluated with its parameters at the
    call, those that are columns of the table replaced by the values of
    the row: no row is rendered with a value of another row.  A table
    without rows gives the image of zeros. *)
Theorem make_model_sources_image_sum (shape : nat * nat) (t : Make.table)
    (oversample : R) (m : model) (vs : list (list R)) :
  let ps := filter (fun p => Make.is_param C m p = true) (Make.colnames t) in
  length vs = Make.table_len t ->
  (forall i v, vs !! i = Some v ->
     Make.row_assignable C t i ps
     /\ eval shape oversample (Make.row_params (params m) t i ps) = Ok v) ->
  (Make.make_model_sources_image C shape t oversample m).1
  = Ok (Make.add_images (replicate (shape.1 * shape.2) 0) vs).
Proof.
  intros ps Hlen Hrows.
  destruct (make_model_sources_image_body shape t oversample m)
    as (m1 & m2 & -> & _). fold ps. cbn [fst].
  destruct (render_rows_app shape t oversample ps m
              (seq 0 (Make.table_len t)) vs []
              (seq_rows _ _ _ Hlen Hrows)
              (replicate (shape.1 * shape.2) 0) m) as (m' & _ & Hrun); [done|].
  rewrite app_nil_r in Hrun. by rewrite Hrun.
Qed.

(** X9.  The first row that fails decides the outcome.  When the rows before
    the row [k] are rendered, the call raises what the evaluation of the
    row [k] raises, and it raises the error of the model when the model
    refuses a value of the row [k]; the rows after it are not looked
    at. *)
Theorem make_model_sources_image_first_failure (shape : nat * nat)
    (t : Make.table) (oversample : R) (m : model) (vs : list (list R))
    (k : nat) :
  let ps := filter (fun p => Make.is_param C m p = true) (Make.colnames t) in
  (k < Make.table_len t)%nat -> length vs = k ->
  (forall i v, vs !! i = Some v ->
     Make.row_assignable C t i ps
     /\ eval shape oversample (Make.row_params (params m) t i ps) = Ok v) ->
  (forall e, Make.row_assignable C t k ps ->
     eval shape oversample (Make.row_params (params m) t k ps) = Raise e ->
     (Make.make_model_sources_image C shape t oversample m).1 = Raise e)
  /\ (Forall (fun p => is_ok (Make.row_get t k p) = true) ps ->
      ~ Make.row_assignable C t k ps ->
      (Make.make_model_sources_image C shape t oversample m).1
      = Raise (ModelError "parameter")).
Proof.
  intros ps Hk Hlen Hrows.
  destruct (make_model_sources_image_body shape t oversample m)
    as (m1 & m2 & -> & _). fold ps. cbn [fst].
  assert (Hseq : seq 0 (Make.table_len t)
                 = seq 0 k ++ k :: seq (S k) (Make.table_len t - S k)).
  { replace (Make.table_len t) with (k + S (Make.table_len t - S k))%nat at 1
      by lia.
    by rewrite seq_app. }
  destruct (render_rows_app shape t oversample ps m (seq 0 k) vs
              (k :: seq (S k) (Make.table_len t - S k))
              (seq_rows _ _ _ Hlen Hrows)
              (replicate (shape.1 * shape.2) 0) m) as (m' & Hm' & Hrun); [done|].
  rewrite Hseq, Hrun. clear Hrun. cbn [Make.render_rows].
  split; unfold mbind, SE_bind, bind at 1 2.
  - intros e Hrow Hev.
    destruct (set_params_ok t k ps m' Hrow) as (m'' & Hset & Hm'').
    rewrite Hset.
    assert (Hsame : params m'' = Make.row_params (params m) t k ps).
    { rewrite Hm''. apply row_params_base; [by apply row_assignable_gets|done]. }
    replace ((if bool_decide (oversample = 1) then Make.call_model C shape
              else Make.call_discretize C shape oversample) m'')
      with (@Raise (list R) e, m''); [done|].
    rewrite <- Hev, <- Hsame.
    unfold Make.model_image, Make.call_model, Make.call_discretize.
    by destruct (bool_decide (oversample = 1)).
  - intros Hgets Hnot.
    destruct (set_params_refused t k ps m' Hgets Hnot) as (m'' & Hset).
    by rewrite Hset.
Qed.

End rows.

Open Scope R_scope.

Lemma flat_params_to_set (t : Make.table) :
  Make.colnames t = ["amplitude"; "sigma"; "note"] ->
  filter (fun p => Make.is_param Instances.flat_class Instances.flat_model p = true)
         (Make.colnames t)
  = ["amplitude"; "sigma"].
Proof. intros ->. reflexivity. Qed.

Lemma flat_row_assignable (t : Make.table) i a s :
  Make.row_get t i "amplitude" = Ok a -> Make.row_get t i "sigma" = Ok s ->
  0 < s ->
  Make.row_assignable Instances.flat_class t i ["amplitude"; "sigma"].
Proof.
  intros Ha Hs Hpos p Hp.
  apply elem_of_cons in Hp as [->|Hp]; [by exists a|].
  apply list_elem_of_singleton in Hp as ->. exists s. split; [done|].
  simpl. by apply bool_decide_eq_true_2.
Qed.

Lemma flat_row_image (t : Make.table) i a s :
  Make.row_get t i "amplitude" = Ok a -> Make.row_get t i "sigma" = Ok s ->
  Make.model_image Instances.flat_class (1%nat, 2%nat) 1
    (Make.row_params (Make.params Instances.flat_model) t i ["amplitude"; "sigma"])
  = if bool_decide (a < 0) then Raise (ModelError "negative amplitude")
    else Ok [a / s; a / s].
Proof.
  intros Ha Hs. unfold Make.model_image.
  rewrite bool_decide_eq_true_2 by done.
  unfold Make.row_params. cbn [foldl]. rewrite Ha, Hs.
  cbn [Instances.flat_class Make.evaluate]. unfold Instances.flat_image.
  rewrite lookup_insert_ne by done. rewrite lookup_insert_eq.
  rewrite lookup_insert_eq. done.
Qed.

Lemma make_model_sources_image_sum_witness :
  (Make.make_model_sources_image Instances.flat_class (1%nat, 2%nat)
     [("amplitude", [4; 6]); ("sigma", [2; 3]); ("note", [0; 0])] 1
     Instances.flat_model).1
  = Ok (Make.add_images (replicate (1 * 2) 0) [[4 / 2; 4 / 2]; [6 / 3; 6 / 3]]).
Proof.
  apply (make_model_sources_image_sum Instances.flat_class (1%nat, 2%nat)
           [("amplitude", [4; 6]); ("sigma", [2; 3]); ("note", [0; 0])] 1
           Instances.flat_model [[4 / 2; 4 / 2]; [6 / 3; 6 / 3]]).
  - reflexivity.
  - intros i v Hv. rewrite flat_params_to_set by reflexivity.
    destruct i as [|[|i]]; simpl in Hv; [| |discriminate];
      injection Hv as <-.
    + split.
      * apply (flat_row_assignable _ _ 4 2); [reflexivity|reflexivity|lra].
      * rewrite (flat_row_image _ _ 4 2) by reflexivity.
        rewrite bool_decide_eq_false_2 by lra. reflexivity.
    + split.
      * apply (flat_row_assignable _ _ 6 3); [reflexivity|reflexivity|lra].
      * rewrite (flat_row_image _ _ 6 3) by reflexivity.
        rewrite bool_decide_eq_false_2 by lra. reflexivity.
Defined.

Lemma make_model_sources_image_first_failure_witness :
  (Make.make_model_sources_image Instances.flat_class (1%nat, 2%nat)
     [("amplitude", [4; -6; 1]); ("sigma", [2; 3; 1]); ("note", [0; 0; 0])] 1
     Instances.flat_model).1
  = Raise (ModelError "negative amplitude").
Proof.
  refine (proj1 (make_model_sources_image_first_failure Instances.flat_class
                   (1%nat, 2%nat)
                   [("amplitude", [4; -6; 1]); ("sigma", [2; 3; 1]);
                    ("note", [0; 0; 0])] 1
                   Instances.flat_model [[4 / 2; 4 / 2]] 1 _ _ _) _ _ _).
  - simpl. lia.
  - reflexivity.
  - intros i v Hv. rewrite flat_params_to_set by reflexivity.
    destruct i as [|i]; simpl in Hv; [|discriminate]. injection Hv as <-.
    split.
    + apply (flat_row_assignable _ _ 4 2); [reflexivity|reflexivity|lra].
    + rewrite (flat_row_image _ _ 4 2) by reflexivity.
      rewrite bool_decide_eq_false_2 by lra. reflexivity.
  - rewrite flat_params_to_set by reflexivity.
    apply (flat_row_assignable _ _ (-6) 3); [reflexivity|reflexivity|lra].
  - rewrite flat_params_to_set by reflexivity.
    rewrite (flat_row_image _ _ (-6) 3) by reflexivity.
    rewrite bool_decide_eq_true_2 by lra. reflexivity.
Defined.

(** C3.  The values saved before the loop are the [Parameter] objects
    of the model, so the [finally] block writes back what the model
    holds at that moment.  One source of amplitude 4 is rendered on a
    model of amplitude 5: the call returns the image, and afterwards the
    amplitude of the model is 4, not the 5 it had before the call. *)
Theorem make_model_sources_image_not_restored :
  exists image m',
    Make.make_model_sources_image Instances.flat_class (1%nat, 2%nat)
      [("amplitude", [4])] 1 Instances.flat_model = (Ok image, m')
    /\ Make.params Instances.flat_model !! "amplitude" = Some 5
    /\ Make.params m' !! "amplitude" = Some 4.
Proof.
  destruct (Render.make_model_sources_image_final Instances.flat_class
              (1%nat, 2%nat) [("amplitude", [4])] 1 Instances.flat_model)
    as (r & m1 & m2 & Hbody & Hcall & Hm).
  change (filter (fun p => Make.is_param Instances.flat_class
                             Instances.flat_model p = true)
                 (Make.colnames [("amplitude", [4])]))
    with ["amplitude"%string] in Hbody.
  cbn [Make.table_len length seq Make.render_rows] in Hbody.
  unfold mbind, SE_bind, bind in Hbody.
  destruct (set_params_ok Instances.flat_class [("amplitude", [4])] 0
              ["amplitude"%string] Instances.flat_model)
    as (ma & Hset & Hma).
  { intros p Hp. apply list_elem_of_singleton in Hp as ->. by exists 4. }
  rewrite Hset in Hbody.
  assert (Hparams : Make.params ma
                    = <["amplitude" := 4]> (Make.params Instances.flat_model)).
  { rewrite Hma. reflexivity. }
  rewrite bool_decide_eq_true_2 in Hbody by done.
  unfold Make.call_model in Hbody. rewrite Hparams in Hbody.
  cbn [Instances.flat_class Make.evaluate] in Hbody.
  unfold Instances.flat_image in Hbody.
  rewrite lookup_insert_eq in Hbody.
  rewrite lookup_insert_ne in Hbody by done.
  change (Make.params Instances.flat_model !! "sigma") with (Some 2) in Hbody.
  rewrite bool_decide_eq_false_2 in Hbody by lra.
  injection Hbody as <- <-.
  eexists _, m2. split; [exact Hcall|]. split; [reflexivity|].
  rewrite Hm, Hparams. apply lookup_insert_eq.
Qed.

Close Scope R_scope.

End RenderRows.

(** ** The sampler without a constraint, and where its points lie *)

Module NonOverlapDraws.
Section draws.
Open Scope R_scope.
Context {rng : Type}.
Variable seed_rng : N -> rng.
Variable uniform_draw : rng -> R -> R -> R * rng.

Local Abbreviation nonoverlap_loop := (Make.nonoverlap_loop uniform_draw).
Local Abbreviation _make_nonoverlap_coords :=
  (Make._make_nonoverlap_coords seed_rng uniform_draw).
Local Abbreviation uniform_n := (Make.uniform_n uniform_draw).

Lemma distance_nonneg (p q : Make.point) : 0 <= Make.distance p q.
Proof. unfold Make.distance. apply sqrt_pos. Qed.

Lemma foldr_Rmin_ge (d x : R) (l : list R) :
  d <= x -> Forall (fun y => d <= y) l -> d <= foldr Rmin x l.
Proof.
  intros Hx Hl. induction Hl as [|y l Hy _ IH]; simpl; [done|].
  by apply Rmin_glb.
Qed.

Lemma far_enough_nonpos (d : R) (p : Make.point) (l : list Make.point) :
  d <= 0 ->
  Make.far_enough d (Make.list_min (map (Make.distance p) l)) = true.
Proof.
  intros Hd. destruct l as [|q l]; simpl; [done|].
  apply bool_decide_eq_true_2. apply foldr_Rmin_ge.
  - pose proof (distance_nonneg p q). lra.
  - apply Forall_fmap, Forall_forall. intros r _. simpl.
    pose proof (distance_nonneg p r). lra.
Qed.

(** Without a constraint the mask keeps every point. *)
Lemma select_nonpos (d : R) (before after : list Make.point) :
  d <= 0 ->
  Make.select (map (Make.far_enough d) (Make.nearest_other before after)) after
  = after.
Proof.
  intros Hd. revert before.
  induction after as [|p rest IH]; intros before; simpl; [done|].
  rewrite far_enough_nonpos by done. by rewrite IH.
Qed.

(** X10.  With a minimum separation of zero or less, ranges that are
    not reversed and a count other than one, nothing is rejected: the
    sampler returns after one round with the count requested, the
    abscissas drawn first and the ordinates after them from the same
    generator, and does not warn.  (For a count of one the array that
    the code returns has another shape, see [_make_nonoverlap_coords].) *)
Theorem nonoverlap_coords_unconstrained (xrange yrange : R * R)
    (ncoords : nat) (min_separation : R) seed entropy :
  min_separation <= 0 ->
  xrange.1 <= xrange.2 -> yrange.1 <= yrange.2 -> ncoords <> 1%nat ->
  let xs := uniform_n (Make.default_rng seed_rng seed entropy)
                      xrange.1 xrange.2 ncoords in
  let ys := uniform_n xs.2 yrange.1 yrange.2 ncoords in
  _make_nonoverlap_coords xrange yrange ncoords min_separation seed entropy
  = Some (Ok (zip xs.1 ys.1, []))
  /\ length (zip xs.1 ys.1) = ncoords.
Proof.
  intros Hd Hx Hy _ xs ys.
  assert (Hlen : length (zip xs.1 ys.1) = ncoords).
  { rewrite length_zip. subst xs ys. rewrite !RandomColumns.uniform_n_draws. lia. }
  split; [|done].
  unfold Make._make_nonoverlap_coords.
  destruct ncoords as [|n].
  { simpl. subst xs ys. done. }
  rewrite NonOverlap.nonoverlap_loop_unfold.
  change (length ([] : list Make.point) <? S n)%nat with true.
  change (20 <? 1)%nat with false. cbv iota.
  rewrite (NonOverlap.rng_uniform_ordered uniform_draw _ _ _ (S n) Hx).
  fold xs. destruct xs as [x_new st1] eqn:Hxs. cbn [fst snd] in *.
  rewrite (NonOverlap.rng_uniform_ordered uniform_draw _ _ _ (S n) Hy).
  fold ys. destruct ys as [y_new st2] eqn:Hys. cbn [fst snd] in *.
  change (1 =? 1)%nat with true. cbv iota zeta.
  unfold Make.kdtree_query_2. rewrite select_nonpos by done.
  rewrite NonOverlap.nonoverlap_loop_unfold. rewrite Hlen.
  rewrite Nat.ltb_irrefl.
  rewrite take_ge by lia. rewrite Hlen, Nat.ltb_irrefl. done.
Qed.

(** A generator whose draws lie in [[lo, hi)]. *)
Hypothesis uniform_in_range :
  forall st lo hi, lo < hi -> lo <= (uniform_draw st lo hi).1 < hi.

Lemma loop_in_box xrange yrange ncoords d :
  xrange.1 < xrange.2 -> yrange.1 < yrange.2 ->
  forall fuel st pool niter r,
    Forall (Make.in_box xrange yrange) pool ->
    nonoverlap_loop fuel xrange yrange ncoords d st pool niter = Some (Ok r) ->
    Forall (Make.in_box xrange yrange) r.1.2.
Proof.
  intros Hx Hy. induction fuel as [|fuel IH]; intros st pool niter r Hpool;
    [discriminate|].
  rewrite NonOverlap.nonoverlap_loop_unfold.
  destruct (length pool <? ncoords)%nat; [|by intros [= <-]].
  destruct (20 <? niter)%nat; [by intros [= <-]|].
  rewrite (NonOverlap.rng_uniform_ordered uniform_draw st _ _ ncoords)
    by lra.
  pose proof (RandomColumns.uniform_n_Forall uniform_draw (fun x => xrange.1 <= x < xrange.2) st
                xrange.1 xrange.2 ncoords
                (fun st' => uniform_in_range st' _ _ Hx)) as Hxs.
  destruct (Make.uniform_n uniform_draw st xrange.1 xrange.2 ncoords)
    as [x_new st1].
  rewrite (NonOverlap.rng_uniform_ordered uniform_draw st1 _ _ ncoords)
    by lra.
  pose proof (RandomColumns.uniform_n_Forall uniform_draw (fun y => yrange.1 <= y < yrange.2) st1
                yrange.1 yrange.2 ncoords
                (fun st' => uniform_in_range st' _ _ Hy)) as Hys.
  destruct (Make.uniform_n uniform_draw st1 yrange.1 yrange.2 ncoords)
    as [y_new st2].
  cbn [fst] in Hxs, Hys. cbv zeta.
  apply IH. apply NonOverlap.select_Forall.
  assert (Hnew : Forall (Make.in_box xrange yrange) (zip x_new y_new)).
  { apply Forall_forall. intros [x y] Hin.
    apply elem_of_zip_l in Hin as Hl. apply elem_of_zip_r in Hin as Hr.
    rewrite Forall_forall in Hxs, Hys. split; simpl; auto. }
  destruct (niter =? 1)%nat; [done|]. by apply Forall_app.
Qed.

(** X11.  Every coordinate returned lies in the two ranges, the upper bounds
    excluded. *)
Theorem nonoverlap_coords_in_range (xrange yrange : R * R) (ncoords : nat)
    (min_separation : R) seed entropy :
  xrange.1 < xrange.2 -> yrange.1 < yrange.2 ->
  exists coords warnings,
    _make_nonoverlap_coords xrange yrange ncoords min_separation seed entropy
    = Some (Ok (coords, warnings))
    /\ Forall (Make.in_box xrange yrange) coords.
Proof.
  intros Hx Hy. unfold Make._make_nonoverlap_coords.
  destruct (NonOverlap.nonoverlap_loop_spec uniform_draw xrange yrange ncoords
              min_separation 20
              (Make.default_rng seed_rng seed entropy) [] 1)
    as (r & Hrun & _); [lia|done|].
  pose proof (NonOverlap.nonoverlap_loop_ordered uniform_draw xrange yrange
                ncoords min_separation ltac:(lra) ltac:(lra) _ _ _ _ _ Hrun)
    as Hok.
  destruct r as [[[st pool] niter]|e]; [|discriminate].
  rewrite Hrun.
  assert (Hbox : Forall (Make.in_box xrange yrange) (take ncoords pool)).
  { apply Forall_take.
    apply (loop_in_box xrange yrange ncoords min_separation Hx Hy _ _ _ _ _
             (Forall_nil_2 _) Hrun). }
  destruct (length (take ncoords pool) <? ncoords)%nat; eauto.
Qed.

End draws.

Lemma nonoverlap_coords_unconstrained_witness :
  Make._make_nonoverlap_coords Instances.lcg_seed Instances.first_uniform
    (0, 10)%R (5, 20)%R 2 0%R (Some 0%N) 0%N
  = Some (Ok (zip (Make.uniform_n Instances.first_uniform
                 (Make.default_rng Instances.lcg_seed (Some 0%N) 0%N)
                 0%R 10%R 2).1
              (Make.uniform_n Instances.first_uniform
                 (Make.uniform_n Instances.first_uniform
                    (Make.default_rng Instances.lcg_seed (Some 0%N) 0%N)
                    0%R 10%R 2).2
                 5%R 20%R 2).1, []))
  /\ length (zip (Make.uniform_n Instances.first_uniform
                    (Make.default_rng Instances.lcg_seed (Some 0%N) 0%N)
                    0%R 10%R 2).1
                 (Make.uniform_n Instances.first_uniform
                    (Make.uniform_n Instances.first_uniform
                       (Make.default_rng Instances.lcg_seed (Some 0%N) 0%N)
                       0%R 10%R 2).2
                    5%R 20%R 2).1) = 2%nat.
Proof.
  apply (nonoverlap_coords_unconstrained Instances.lcg_seed
           Instances.first_uniform (0, 10)%R (5, 20)%R 2 0%R (Some 0%N) 0%N);
    simpl; (lra || lia).
Defined.

Lemma nonoverlap_coords_in_range_witness :
  exists coords warnings,
    Make._make_nonoverlap_coords Instances.lcg_seed Instances.lcg_uniform
      (0, 10)%R (5, 20)%R 3 1%R (Some 0%N) 0%N = Some (Ok (coords, warnings))
    /\ Forall (Make.in_box (0, 10)%R (5, 20)%R) coords.
Proof.
  apply (nonoverlap_coords_in_range Instances.lcg_seed Instances.lcg_uniform
           RandomColumns.lcg_uniform_in_range (0, 10)%R (5, 20)%R 3 1%R (Some 0%N) 0%N);
    simpl; lra.
Defined.

End NonOverlapDraws.

(** ** The exits of [calc_total_error] *)

Module TotalErrorExits.
Import Store.
Section exits.
Open Scope R_scope.
Context {U : Type}.
Variable unit_eqb : U -> U -> bool.
Variable unit_mul : U -> U -> U.
Variables electron photon : U.
Variable broadcast_add :
  list nat -> list R -> list nat -> list R -> option (list nat * list R).
Variable rnd : R -> R.

Local Abbreviation calc_total_error :=
  (Errors.calc_total_error unit_eqb unit_mul electron photon broadcast_add rnd).
Local Abbreviation gain_like := (@Errors.gain_like U).
Local Abbreviation units_consistent :=
  (Errors.units_consistent unit_eqb unit_mul electron photon).

Lemma existsb_some_negative (gs : list R) :
  Exists (fun g => g < 0) gs ->
  existsb (fun g => bool_decide (g < 0)) gs = true.
Proof.
  induction 1 as [g gs Hg|g gs _ IH]; simpl.
  - by rewrite bool_decide_eq_true_2.
  - by rewrite IH, orb_true_r.
Qed.

(** The conversion of an argument returns in a store that extends the
    one it started from. *)
Lemma np_asanyarray_ext (h : heap) (x : array_like U) post :
  (forall a ext, unit_of a = Errors.arg_unit x -> post a (h ++ ext)) ->
  returns (Errors.np_asanyarray x) h post.
Proof.
  intros Hpost. destruct x as [a|sh xs]; simpl.
  - apply returns_ret. specialize (Hpost a []). rewrite app_nil_r in Hpost.
    by apply Hpost.
  - apply returns_bind, returns_alloc, returns_ret. by apply Hpost.
Qed.

Ltac lookup_tac :=
  solve [ repeat first
            [ eassumption
            | apply list_lookup_middle; reflexivity
            | apply lookup_app_l_Some ] ].

(** X12.  A gain with a negative item is refused, whichever the other
    items: for data of a known shape, a gain that is a number or an
    array of that shape, and units used by none or consistently by all,
    the call raises the [ValueError] on the gain.  The background error
    is not looked at. *)
Theorem calc_total_error_negative_gain h (data bkg_error : array_like U)
    (effective_gain : gain_like) sh I gs :
  Errors.represents h data sh I ->
  Errors.gain_represents h effective_gain sh gs ->
  units_consistent data bkg_error effective_gain ->
  Exists (fun g => g < 0) gs ->
  raises (calc_total_error data bkg_error effective_gain) h
    (ValueError "effective_gain must be non-zero everywhere.").
Proof.
  intros Hdata Hgain Hunits Hneg.
  apply existsb_some_negative in Hneg.
  unfold Errors.calc_total_error.
  apply raises_bind. eapply TotalError.np_asanyarray_returns; [exact Hdata|].
  intros d ext1 Hd Hdsh Hdu.
  apply (TotalError.gain_represents_ext _ ext1) in Hgain.
  apply raises_bind, np_asanyarray_ext. intros b ext2 Hbu.
  apply (TotalError.gain_represents_ext _ ext2) in Hgain.
  cbv zeta.
  destruct (TotalError.unit_guards unit_eqb unit_mul electron photon
              data bkg_error effective_gain d b Hunits Hdu Hbu)
    as [Hmixed Hall].
  rewrite Hmixed. apply raises_bind, returns_ret.
  subst sh.
  destruct Hall as [Hu|(Hu & ud & ub & ug & Hud & Hub & Hug & Heq & Hcount)];
    rewrite Hu; [|rewrite Hud, Hub, Hug, Heq, Hcount; cbn [negb]];
    apply raises_bind, returns_ret;
    apply raises_bind;
    (eapply TotalError.gain_block_returns; [exact Hgain|]);
    intros g ext3 Hg Hgsh; cbv beta;
    apply raises_bind; (eapply returns_load; [lookup_tac|]);
    rewrite Hneg; apply raises_bind_l, raises_raise.
Qed.

(** X13.  A gain that is an array, or a sequence, of another shape than the
    data is refused with the [ValueError] on its shape, when the units
    are used by none or consistently by all. *)
Theorem calc_total_error_gain_shape h (data bkg_error gain : array_like U)
    sh I sh' gs :
  Errors.represents h data sh I ->
  Errors.represents h gain sh' gs ->
  Errors.isiterable (Errors.GArray gain) = true ->
  sh' <> sh ->
  units_consistent data bkg_error (Errors.GArray gain) ->
  raises (calc_total_error data bkg_error (Errors.GArray gain)) h
    (ValueError "If input effective_gain is 2D, then it must have the same shape as the input data.").
Proof.
  intros Hdata Hgain Hiter Hne Hunits.
  unfold Errors.calc_total_error.
  apply raises_bind. eapply TotalError.np_asanyarray_returns; [exact Hdata|].
  intros d ext1 Hd Hdsh Hdu.
  apply (TotalError.represents_ext _ ext1) in Hgain.
  apply raises_bind, np_asanyarray_ext. intros b ext2 Hbu.
  apply (TotalError.represents_ext _ ext2) in Hgain.
  cbv zeta.
  destruct (TotalError.unit_guards unit_eqb unit_mul electron photon
              data bkg_error (Errors.GArray gain) d b Hunits Hdu Hbu)
    as [Hmixed Hall].
  rewrite Hmixed. apply raises_bind, returns_ret.
  rewrite Hiter. cbn [negb].
  destruct Hall as [Hu|(Hu & ud & ub & ug & Hud & Hub & Hug & Heq & Hcount)];
    rewrite Hu; [|rewrite Hud, Hub, Hug, Heq, Hcount; cbn [negb]];
    apply raises_bind, returns_ret;
    apply raises_bind_l, raises_bind; cbn [Errors.gain_array];
    (eapply TotalError.np_asanyarray_returns; [exact Hgain|]);
    intros g ext3 _ Hgsh _;
    (rewrite bool_decide_eq_true_2 by congruence);
    apply raises_raise.
Qed.

(** X14.  The store only grows: whether the call returns or raises, every
    buffer that existed before it holds what it held. *)
Theorem calc_total_error_store_grows h (data bkg_error : array_like U)
    (effective_gain : gain_like) :
  (length h <= length (calc_total_error data bkg_error effective_gain h).2)%nat
  /\ forall l xs, h !! l = Some xs ->
       (calc_total_error data bkg_error effective_gain h).2 !! l = Some xs.
Proof.
  destruct (calc_total_error data bkg_error effective_gain h) as [r h'] eqn:Hrun.
  destruct (TotalError.calc_total_error_frames unit_eqb unit_mul electron
              photon broadcast_add rnd (length h) data bkg_error effective_gain
              h r h') as (Hlen & Hsame & _); [done|done|].
  split; [done|]. intros l xs Hl. simpl. rewrite Hsame; [done|].
  by eapply lookup_lt_Some.
Qed.

Ltac opaque :=
  repeat first
    [ apply opaque_ret | apply opaque_raise | apply opaque_load
    | apply opaque_alloc
    | apply opaque_bind; [|intros ?]
    | match goal with
      | |- opaque_step _ (if ?c then _ else _) => destruct c
      | |- opaque_step _ (match ?x with _ => _ end) => destruct x
      end ].

Lemma np_asanyarray_unit (x : array_like U) :
  frames 0 (Errors.np_asanyarray x)
         (fun a => unit_of a = Errors.arg_unit x) (fun _ _ => True).
Proof.
  destruct x as [a|sh xs]; simpl.
  - by apply frames_ret.
  - eapply frames_bind; [apply frames_alloc|]. intros l _.
    by apply frames_ret.
Qed.

(** A guard passes only when its condition is false. *)
Lemma frames_guard (c : bool) e :
  frames 0 (if c then raise e else mret tt)
         (fun _ => c = false) (fun _ _ => True).
Proof. destruct c; [apply frames_raise|by apply frames_ret]. Qed.

Lemma frames_unit_guard (use_units : bool) (ud ub ug : option U) :
  frames 0
    (if use_units then
       match ud, ub, ug with
       | Some ud, Some ub, Some ug =>
           if negb (unit_eqb ud ub)
           then raise (ValueError "data and bkg_error must have the same units.")
           else
             let datagain_unit := unit_mul ud ug in
             if negb (existsb (unit_eqb datagain_unit) [electron; photon])
             then raise (UnitsError "(data * effective_gain) must have count units (e.g., u.electron or u.photon).")
             else ret tt
       | _, _, _ => raise (AttributeError "unit")
       end
     else ret tt)
    (fun _ => use_units = true ->
              exists ud' ub' ug', ud = Some ud' /\ ub = Some ub' /\ ug = Some ug'
                /\ unit_eqb ud' ub' = true
                /\ existsb (unit_eqb (unit_mul ud' ug')) [electron; photon] = true)
    (fun _ _ => True).
Proof.
  destruct use_units; [|by apply frames_ret].
  destruct ud as [ud'|], ub as [ub'|], ug as [ug'|]; try apply frames_raise.
  destruct (unit_eqb ud' ub') eqn:Heq; simpl; [|apply frames_raise].
  destruct (unit_eqb (unit_mul ud' ug') electron) eqn:He; simpl.
  - apply frames_ret; [|done]. intros _. exists ud', ub', ug'.
    by rewrite Heq, He.
  - destruct (unit_eqb (unit_mul ud' ug') photon) eqn:Hp; simpl;
      [|apply frames_raise].
    apply frames_ret; [|done]. intros _. exists ud', ub', ug'.
    by rewrite Heq, He, Hp.
Qed.

Lemma calc_total_error_unit_frames (data bkg_error : array_like U)
    (effective_gain : gain_like) :
  frames 0 (calc_total_error data bkg_error effective_gain)
    (fun r => units_consistent data bkg_error effective_gain
              /\ unit_of r = Errors.arg_unit bkg_error)
    (fun _ _ => True).
Proof.
  unfold Errors.calc_total_error.
  eapply frames_bind; [apply np_asanyarray_unit|]. intros d Hd.
  cbv beta in Hd.
  eapply frames_bind; [apply np_asanyarray_unit|]. intros b Hb.
  cbv beta in Hb.
  cbv zeta.
  eapply frames_bind; [apply frames_guard|]. intros [] Hmixed.
  eapply frames_bind; [apply frames_unit_guard|]. intros [] Hall.
  cbv beta in Hmixed, Hall.
  assert (Hunits : units_consistent data bkg_error effective_gain).
  { revert Hmixed Hall. rewrite TotalError.gain_has_unit_spec, Hd, Hb.
    unfold Errors.units_consistent.
    destruct (Errors.arg_unit data) as [ud|],
      (Errors.arg_unit bkg_error) as [ub|],
      (Errors.gain_unit effective_gain) as [ug|]; simpl; try discriminate.
    - intros _ Hall. destruct (Hall eq_refl)
        as (ud' & ub' & ug' & [= <-] & [= <-] & [= <-] & Heq & Hcount).
      right. exists ud, ub, ug. repeat split; try done.
      simpl in Hcount. rewrite orb_false_r in Hcount.
      by apply orb_true_iff in Hcount.
    - intros _ _. by left. }
  eapply frames_bind.
  { apply opaque_frames.
    destruct (negb (Errors.isiterable effective_gain)).
    - apply opaque_bind; [apply TotalError.gain_scalar_opaque|]. intros v. opaque.
    - apply opaque_bind; [apply TotalError.gain_array_opaque|]. intros g. opaque. }
  intros g _.
  eapply frames_bind; [apply frames_load|]. intros gs _.
  eapply frames_bind; [apply opaque_frames; opaque|]. intros _ _.
  eapply frames_bind; [apply frames_load|]. intros xs _.
  eapply frames_bind; [apply frames_alloc|]. intros sv _.
  eapply frames_bind; [apply frames_load|]. intros gs' _.
  eapply frames_bind; [apply frames_load|]. intros cur _.
  eapply frames_bind; [apply frames_store; lia|]. intros _ _.
  eapply frames_bind; [apply frames_load|]. intros cur' _.
  eapply frames_bind; [apply frames_store; lia|]. intros _ _.
  eapply frames_bind; [apply frames_load|]. intros cur'' _.
  eapply frames_bind; [apply frames_alloc|]. intros mx _.
  eapply frames_bind; [apply frames_load|]. intros bs _.
  eapply frames_bind; [apply frames_alloc|]. intros sq _.
  eapply frames_bind; [apply frames_load|]. intros sqs _.
  eapply frames_bind; [apply frames_load|]. intros svs _.
  destruct (Errors.np_add _ _ _ _ _ _) as [[sh sums]|e]; [|apply frames_raise].
  eapply frames_bind; [apply frames_alloc|]. intros sm _.
  eapply frames_bind; [apply frames_load|]. intros tot _.
  eapply frames_bind; [apply frames_alloc|]. intros out _.
  by apply frames_ret.
Qed.

(** X15.  The call returns only when the units are used by none of the
    arguments or consistently by all three, and the array it returns
    carries the unit of the background error, which is then the unit of
    the data as far as the comparison of units tells, or no unit. *)
Theorem calc_total_error_returns_units h (data bkg_error : array_like U)
    (effective_gain : gain_like) r h' :
  calc_total_error data bkg_error effective_gain h = (Ok r, h') ->
  units_consistent data bkg_error effective_gain
  /\ unit_of r = Errors.arg_unit bkg_error
  /\ (forall ud ub, Errors.arg_unit data = Some ud ->
        unit_of r = Some ub -> unit_eqb ud ub = true)
  /\ (Errors.arg_unit data = None -> unit_of r = None).
Proof.
  intros Hrun.
  destruct (calc_total_error_unit_frames data bkg_error effective_gain
              h (Ok r) h') as (_ & _ & Hpost); [lia|done|].
  destruct (Hpost r eq_refl) as [[Hunits Hr] _].
  split; [done|]. split; [done|]. rewrite Hr.
  destruct Hunits as [(Hd & Hb & _)|(ud & ub & ug & Hd & Hb & _ & Heq & _)].
  - split; [|done]. intros ud ub Hud. congruence.
  - split; [|congruence]. intros ud' ub' Hud Hub. congruence.
Qed.

End exits.

Import Instances.

Lemma calc_total_error_negative_gain_witness :
  raises
    (Errors.calc_total_error exps_eqb exps_mul u_electron u_photon no_broadcast
       (fun x => x)
       (Arr (mk_ndarray 0%nat [3%nat] None)) (Arr (mk_ndarray 1%nat [3%nat] None))
       (Errors.GScalar (-2) None))
    [[4; -1; 9]; [3; 3; 3]]%R
    (ValueError "effective_gain must be non-zero everywhere.").
Proof.
  apply (calc_total_error_negative_gain exps_eqb exps_mul u_electron u_photon
           no_broadcast (fun x => x) [[4; -1; 9]; [3; 3; 3]]%R
           (Arr (mk_ndarray 0%nat [3%nat] None))
           (Arr (mk_ndarray 1%nat [3%nat] None))
           (Errors.GScalar (-2) None) [3%nat] [4; -1; 9]%R [-2; -2; -2]%R).
  - repeat split; reflexivity.
  - reflexivity.
  - left. repeat split; reflexivity.
  - constructor. lra.
Defined.

Lemma calc_total_error_gain_shape_witness :
  raises
    (Errors.calc_total_error exps_eqb exps_mul u_electron u_photon no_broadcast
       (fun x => x)
       (Arr (mk_ndarray 0%nat [3%nat] None)) (Arr (mk_ndarray 1%nat [3%nat] None))
       (Errors.GArray (Seq [2%nat] [2; 2]%R)))
    [[4; -1; 9]; [3; 3; 3]]%R
    (ValueError "If input effective_gain is 2D, then it must have the same shape as the input data.").
Proof.
  apply (calc_total_error_gain_shape exps_eqb exps_mul u_electron u_photon
           no_broadcast (fun x => x) [[4; -1; 9]; [3; 3; 3]]%R
           (Arr (mk_ndarray 0%nat [3%nat] None))
           (Arr (mk_ndarray 1%nat [3%nat] None))
           (Seq [2%nat] [2; 2]%R) [3%nat] [4; -1; 9]%R [2%nat] [2; 2]%R).
  - repeat split; reflexivity.
  - repeat split; reflexivity.
  - reflexivity.
  - discriminate.
  - left. repeat split; reflexivity.
Defined.

Lemma calc_total_error_returns_units_witness :
  exists r h',
    Errors.calc_total_error exps_eqb exps_mul u_electron u_photon no_broadcast
      (fun x => x)
      (Arr (mk_ndarray 0%nat [3%nat] (Some u_electron_per_s)))
      (Arr (mk_ndarray 1%nat [3%nat] (Some u_electron_per_s)))
      (Errors.GScalar 100 (Some u_second)) [[4; -1; 9]; [3; 3; 3]]%R
    = (Ok r, h')
    /\ unit_of r = Some u_electron_per_s.
Proof.
  destruct (TotalError.calc_total_error_run exps_eqb exps_mul u_electron
              u_photon no_broadcast (fun x => x) [[4; -1; 9]; [3; 3; 3]]%R
              (Arr (mk_ndarray 0%nat [3%nat] (Some u_electron_per_s)))
              (Arr (mk_ndarray 1%nat [3%nat] (Some u_electron_per_s)))
              (Errors.GScalar 100 (Some u_second))
              [3%nat] [4; -1; 9]%R [3; 3; 3]%R [100; 100; 100]%R)
    as (r & h' & Hrun & _).
  - repeat split; reflexivity.
  - repeat split; reflexivity.
  - reflexivity.
  - repeat constructor; lra.
  - right. exists u_electron_per_s, u_electron_per_s, u_second.
    repeat split; try reflexivity. left. reflexivity.
  - exists r, h'. split; [exact Hrun|].
    exact (proj1 (proj2 (calc_total_error_returns_units exps_eqb exps_mul
                           u_electron u_photon no_broadcast (fun x => x)
                           _ _ _ _ r h' Hrun))).
Defined.

End TotalErrorExits.
